(** * Password generator: randomness and composition engine

    A shallow embedding of [script.js]: the bounded random integer
    [getSecureRandomInt], the character pick [pickRandomChar], the
    Fisher-Yates [shuffleArray] and the composer [generatePassword],
    together with the properties the specification states about them.

    The numbers of the program are lengths, indices, bounds and 32-bit
    words; they are integers here.  The two sources of entropy are
    streams the program reads from, passed along as state.  Of the DOM
    wiring, showTemporaryMessage and the click handler of the generate
    button are modelled over a record of what they read and write of
    the page; the copy handler, which awaits the clipboard, and the
    load listener are not. *)

From stdpp Require Import base numbers list strings.

Local Open Scope Z_scope.

(** ** The character pools (script.js, lines 3-6) *)

Definition UPPER : string := "ABCDEFGHIJKLMNOPQRSTUVWXYZ".
Definition LOWER : string := "abcdefghijklmnopqrstuvwxyz".
Definition NUMBERS : string := "0123456789".
Definition SYMBOLS : string := "~`!@#$%^&*()_-+={}[]|:;<>.?/,".

(** ** The host environment

    [window.crypto.getRandomValues] and [Math.random] are the only
    sources of entropy.  A world records whether the crypto capability
    is present, the values each source will hand out next (a finite
    prefix of what the source produces), and a log with the argument of
    every call of [getSecureRandomInt] that returned.  The log is
    instrumentation only: no function of the program reads it. *)

(** A value of the half-open unit interval, the range of [Math.random]:
    the fraction [u_num / (u_num + u_gap)].  [Math.random] returns a
    double: the fraction stands for the largest double that does not
    exceed it (see [random_double]), which is the fraction itself when
    the fraction is a double. *)
Record unit01 : Type := Unit01 { u_num : N; u_gap : positive }.

Record World : Type := MkWorld {
  crypto : bool;
  words : list Z;
  randoms : list unit01;
  calls : list Z
}.

Definition set_words (ws : list Z) (w : World) : World :=
  MkWorld (crypto w) ws (randoms w) (calls w).
Definition set_randoms (us : list unit01) (w : World) : World :=
  MkWorld (crypto w) (words w) us (calls w).
Definition log_call (max : Z) (w : World) : World :=
  MkWorld (crypto w) (words w) (randoms w) (calls w ++ [max]).

(** Computations that draw from the world.  [None] means that the
    finite prefix of the entropy source ran out before the computation
    returned: the call is still waiting for a value. *)
Definition M (A : Type) : Type := World -> option (A * World).

Definition ret {A} (a : A) : M A := fun w => Some (a, w).
Definition bind {A B} (m : M A) (k : A -> M B) : M B :=
  fun w => match m w with
           | Some (a, w') => k a w'
           | None => None
           end.

Notation "x <- m ;; k" := (bind m (fun x => k))
  (at level 100, m at next level, right associativity).

(** ** getSecureRandomInt (script.js, lines 9-23) *)

Definition uint32Max : Z := 0xffffffff.

(** The rejection threshold of line 15. *)
Definition bound (max : Z) : Z := uint32Max / max * max.

(** What a [Uint32Array] cell holds after a store. *)
Definition to_uint32 (x : Z) : Z := x mod 2 ^ 32.

(** The [while (true)] loop of lines 16-19, over the words the source
    hands out: each iteration takes one word. *)
Fixpoint draw_until (max bnd : Z) (ws : list Z) : option (Z * list Z) :=
  match ws with
  | [] => None
  | x :: ws' =>
      let rand0 := to_uint32 x in
      if rand0 <? bnd then Some (Z.rem rand0 max, ws')
      else draw_until max bnd ws'
  end.

(** The double that [Math.random()] returns for [u], as a pair
    [(m, e)] that stands for [m / 2^e]: the 53 leading binary digits of
    the fraction, and no digit below [2^-1074], the last place of a
    double.  [m] is below [2^53] and [e] is at least 53. *)
Definition random_double (u : unit01) : Z * Z :=
  let n := Z.of_N (u_num u) in
  let d := n + Z.pos (u_gap u) in
  if n =? 0 then (0, 53)
  else
    let e := Z.min 1074 (53 + Z.log2 ((d - 1) / n)) in
    (n * 2 ^ e / d, e).

(** Rounding to a double, to nearest and ties to even, of a non-negative
    integer [n]: above 53 binary digits the lowest [s] digits are
    dropped and the rest goes up when they are more than half a unit of
    the last kept place, or exactly half and the last kept digit is
    odd. *)
Definition round_to_double (n : Z) : Z :=
  if n <? 2 ^ 53 then n
  else
    let s := Z.log2 n - 52 in
    let q := n / 2 ^ s in
    let r := n mod 2 ^ s in
    let up := (2 ^ s <? 2 * r) || ((2 * r =? 2 ^ s) && Z.odd q) in
    (if up then q + 1 else q) * 2 ^ s.

(** [Math.floor(Math.random() * max)] of line 22: the product of the
    two doubles is [m * max / 2^e] rounded to a double (the scaling by a
    power of two is exact), and [Math.floor] takes its integer part.
    [max] is a double itself whenever it has at most 53 binary digits,
    as every length and index has. *)
Definition scale (u : unit01) (max : Z) : Z :=
  let '(m, e) := random_double u in
  round_to_double (m * max) / 2 ^ e.

Definition getSecureRandomInt (max : Z) : M Z := fun w =>
  if max <=? 0 then Some (0, log_call max w)
  else if crypto w then
    match draw_until max (bound max) (words w) with
    | Some (v, rest) => Some (v, log_call max (set_words rest w))
    | None => None
    end
  else
    match randoms w with
    | u :: us => Some (scale u max, log_call max (set_randoms us w))
    | [] => None
    end.

(** ** Strings and arrays as the program uses them *)

(** [str.charAt(i)]: the one-character string at [i], or the empty
    string when [i] is out of range. *)
Definition charAt (str : string) (i : Z) : string :=
  if i <? 0 then EmptyString
  else match String.get (Z.to_nat i) str with
       | Some c => String c EmptyString
       | None => EmptyString
       end.

Definition str_length (s : string) : Z := Z.of_nat (String.length s).

(** An array of [A]: a cell holds a value or [undefined] ([None]). *)
Abbreviation array A := (list (option A)).

Section Arrays.
Context {A : Type}.

(** [a[i]] *)
Definition arr_get (a : array A) (i : Z) : option A :=
  if i <? 0 then None else default None (a !! Z.to_nat i).

(** [a[i] = v]: inside the array the cell is replaced, beyond its end
    the array grows and the cells in between read as [undefined]; a
    negative [i] names a property, not a cell. *)
Definition arr_set (a : array A) (i : Z) (v : option A) : array A :=
  if i <? 0 then a
  else if i <? Z.of_nat (length a) then <[Z.to_nat i := v]> a
  else a ++ replicate (Z.to_nat i - length a)%nat None ++ [v].

(** [a.push(x)] *)
Definition push (a : array A) (x : A) : array A := a ++ [Some x].

(** [[a[i], a[j]] = [a[j], a[i]]]: the right-hand side is read first,
    then [a[i]] and [a[j]] are written in this order. *)
Definition swap (a : array A) (i j : Z) : array A :=
  let t0 := arr_get a j in
  let t1 := arr_get a i in
  arr_set (arr_set a i t0) j t1.
End Arrays.

(** [a.join('')]: [undefined] cells contribute nothing. *)
Definition join (a : array string) : string :=
  String.concat EmptyString (map (fun c => default EmptyString c) a).

(** ** pickRandomChar (script.js, lines 25-27) *)

Definition pickRandomChar (str : string) : M string :=
  i <- getSecureRandomInt (str_length str) ;;
  ret (charAt str i).

(** ** shuffleArray (script.js, lines 30-36) *)

Section Shuffle.
Context {A : Type}.

(** The loop body for [i], [i - 1], ..., [1]. *)
Fixpoint shuffle_from (i : nat) (a : array A) : M (array A) :=
  match i with
  | O => ret a
  | S i' =>
      j <- getSecureRandomInt (Z.of_nat i + 1) ;;
      shuffle_from i' (swap a (Z.of_nat i) j)
  end.

Definition shuffleArray (a : array A) : M (array A) :=
  shuffle_from (length a - 1)%nat a.
End Shuffle.

(** ** generatePassword (script.js, lines 39-64) *)

Record Options : Type := MkOptions {
  upper : bool;
  lower : bool;
  numbers : bool;
  symbols : bool
}.

(** How a call ends: a returned string or a thrown [Error]. *)
Inductive completion : Type :=
  | Return (s : string)
  | Throw (msg : string).

(** Lines 40-44. *)
Definition build_pools (o : Options) : list string :=
  (if upper o then [UPPER] else []) ++
  (if lower o then [LOWER] else []) ++
  (if numbers o then [NUMBERS] else []) ++
  (if symbols o then [SYMBOLS] else []).

(** Line 54: [pools.forEach(pool => result.push(pickRandomChar(pool)))]. *)
Fixpoint guaranteed (pools : list string) (result : array string)
  : M (array string) :=
  match pools with
  | [] => ret result
  | pool :: pools' =>
      c <- pickRandomChar pool ;;
      guaranteed pools' (push result c)
  end.

(** Lines 58-60, for the [n] remaining positions. *)
Fixpoint fill (n : nat) (combined : string) (result : array string)
  : M (array string) :=
  match n with
  | O => ret result
  | S n' =>
      c <- pickRandomChar combined ;;
      fill n' combined (push result c)
  end.

Definition generatePassword (len : Z) (o : Options) : M completion :=
  let pools := build_pools o in
  if Z.of_nat (length pools) =? 0 then ret (Return EmptyString)
  else if len <? Z.of_nat (length pools) then
    ret (Throw "Length too short for selected character types")
  else
    result <- guaranteed pools [] ;;
    let combined := String.concat EmptyString pools in
    result <- fill (Z.to_nat (len - Z.of_nat (length result))) combined result ;;
    shuffled <- shuffleArray result ;;
    ret (Return (join shuffled)).

(** A world on the crypto path and one on the fallback path. *)
Definition crypto_world (ws : list Z) : World := MkWorld true ws [] [].
Definition fallback_world (us : list unit01) : World := MkWorld false [] us [].

(** * Notions used to state the properties *)

(** [ensures m Q]: every result of [m] satisfies [Q]. *)
Definition ensures {A} (m : M A) (Q : A -> Prop) : Prop :=
  forall w a w', m w = Some (a, w') -> Q a.

(** [logs m t]: a run of [m] appends exactly [t] to the call log. *)
Definition logs {A} (m : M A) (t : list Z) : Prop :=
  forall w a w', m w = Some (a, w') -> calls w' = calls w ++ t.

(** ** Words that every bound up to [hi] accepts *)

Definition welcome (hi x : Z) : Prop := to_uint32 x < 2 ^ 32 - hi.

#[global] Instance welcome_dec hi x : Decision (welcome hi x) :=
  decide (to_uint32 x < 2 ^ 32 - hi).

Definition supply (hi : Z) (w : World) : nat :=
  if crypto w
  then length (filter (welcome hi) (words w))
  else length (randoms w).

(** [runs n hi m]: [m] returns as soon as the world supplies [n] values
    that are accepted under every bound up to [hi], and leaves the rest
    of the supply in place. *)
Definition runs {A} (n : nat) (hi : Z) (m : M A) : Prop :=
  forall w k, (n + k <= supply hi w)%nat ->
    exists a w', m w = Some (a, w') /\ (k <= supply hi w')%nat.

(** [accepting max w]: the world holds a value that lets a call with
    bound [max] return: a word below the threshold on the crypto path,
    any value of [Math.random] on the fallback path. *)
Definition accepting (max : Z) (w : World) : Prop :=
  if crypto w
  then Exists (fun x => to_uint32 x < bound max) (words w)
  else randoms w <> [].

(** ** Replaying a run

    [replays m]: a run of [m] reads a prefix of each stream and nothing
    else of the world; on any world with the same capability whose
    streams start with these prefixes it returns the same result and
    leaves what follows them. *)
Definition replays {A} (m : M A) : Prop :=
  forall w a w', m w = Some (a, w') ->
    crypto w' = crypto w /\
    exists p q,
      words w = p ++ words w' /\ randoms w = q ++ randoms w' /\
      forall rw rr cs, exists cs',
        m (MkWorld (crypto w) (p ++ rw) (q ++ rr) cs)
        = Some (a, MkWorld (crypto w) rw rr cs').

(** ** Strings *)

(** The characters of a string, in order. *)
Definition chars (s : string) : list Ascii.ascii := String.list_ascii_of_string s.

(** A cell that holds one character of [pool]. *)
Definition cell_in (pool : string) (cell : option string) : Prop :=
  exists c, cell = Some (String c EmptyString) /\ c ∈ chars pool.

(** ** The shuffle loop *)

(** The bounds the loop started at [i] passes to getSecureRandomInt:
    [i + 1], [i], ..., [2]. *)
Fixpoint shuffle_bounds (i : nat) : list Z :=
  match i with
  | O => []
  | S i' => (Z.of_nat i + 1) :: shuffle_bounds i'
  end.

(** ** Requests *)

Inductive CharacterClass : Type := Upper | Lower | Digit | Symbol.

#[global] Instance CharacterClass_eq_dec : EqDecision CharacterClass.
Proof. solve_decision. Defined.

Definition class_chars (c : CharacterClass) : string :=
  match c with
  | Upper => UPPER
  | Lower => LOWER
  | Digit => NUMBERS
  | Symbol => SYMBOLS
  end.

Definition selected (o : Options) (c : CharacterClass) : bool :=
  match c with
  | Upper => upper o
  | Lower => lower o
  | Digit => numbers o
  | Symbol => symbols o
  end.

(** The selection of a request, and its size. *)
Definition selection (o : Options) : list CharacterClass :=
  filter (fun c => selected o c = true) [Upper; Lower; Digit; Symbol].

Definition selection_size (o : Options) : Z := Z.of_nat (length (selection o)).

(** A request is valid when its selection is not empty and its length
    leaves room for one character of each selected class. *)
Definition valid_request (len : Z) (o : Options) : Prop :=
  selection o <> [] /\ selection_size o <= len.

(** Lines 52-63: what a valid request runs. *)
Definition compose (len : Z) (pools : list string) : M completion :=
  result <- guaranteed pools [] ;;
  let combined := String.concat EmptyString pools in
  result <- fill (Z.to_nat (len - Z.of_nat (length result))) combined result ;;
  shuffled <- shuffleArray result ;;
  ret (Return (join shuffled)).

(** The arguments of the calls of getSecureRandomInt in a run for a
    valid request, in order. *)
Definition expected_calls (len : Z) (o : Options) : list Z :=
  map str_length (build_pools o) ++
  replicate (Z.to_nat (len - selection_size o))
    (str_length (String.concat EmptyString (build_pools o))) ++
  shuffle_bounds (Z.to_nat len - 1).

(** What the array holds before the shuffle. *)
Definition drafted (len : Z) (pools : list string) (r : array string) : Prop :=
  exists cells extra,
    r = cells ++ extra /\ Forall2 cell_in pools cells /\
    Forall (cell_in (String.concat EmptyString pools)) extra /\
    Z.of_nat (length r) = len.

(** [covering len o pw]: [pw] has [len] characters, all of them from
    selected classes and none from another class, and every selected
    class has a character in it. *)
Definition covering (len : Z) (o : Options) (pw : string) : Prop :=
  Z.of_nat (String.length pw) = len /\
  (forall ch, ch ∈ chars pw ->
     exists c, selected o c = true /\ ch ∈ chars (class_chars c)) /\
  (forall c ch, selected o c = false -> ch ∈ chars pw ->
     ch ∉ chars (class_chars c)) /\
  (forall c, selected o c = true ->
     exists ch, ch ∈ chars pw /\ ch ∈ chars (class_chars c)).

(** ** The reference shuffle

    The Fisher-Yates procedure as the specification words it: iterate
    over the indices from the last one down to 1; at index [i] draw
    [j = nextBoundedInt(i + 1)] and swap positions [i] and [j]. *)

Section Reference.
Context {X : Type}.

(** Positions [i] and [j] of [l] exchanged. *)
Definition exchange (i j : nat) (l : list X) : list X :=
  match l !! i, l !! j with
  | Some x, Some y => <[i := y]> (<[j := x]> l)
  | _, _ => l
  end.

Definition fisher_yates_step (l : list X) (i : nat) : M (list X) :=
  j <- getSecureRandomInt (Z.of_nat (i + 1)) ;;
  ret (exchange i (Z.to_nat j) l).

Fixpoint fisher_yates_over (indices : list nat) (l : list X) : M (list X) :=
  match indices with
  | [] => ret l
  | i :: rest =>
      l' <- fisher_yates_step l i ;;
      fisher_yates_over rest l'
  end.

Definition fisher_yates (l : list X) : M (list X) :=
  fisher_yates_over (reverse (seq 1 (length l - 1))) l.
End Reference.

(** ** Counting words and draws *)

(** The words the rejection loop accepts for [max] and turns into [v]. *)
Definition words_giving (max v : Z) : list Z :=
  filter (fun x => Z.rem x max = v) (seqZ 0 (bound max)).

(** [respects R m]: every run of [m] takes a world to an [R]-related one. *)
Definition respects (R : World -> World -> Prop) {A} (m : M A) : Prop :=
  forall w a w', m w = Some (a, w') -> R w w'.

(** The number of logged calls that had a positive bound: the calls
    that drew from a source. *)
Definition drawing_calls (cs : list Z) : nat :=
  length (filter (fun max => 0 < max) cs).

(** [accounted w w']: what a run from [w] to [w'] took from the sources.
    The capability is the same; on the fallback path the words are
    untouched and one Math.random value is gone per drawing call; on the
    crypto path the Math.random values are untouched and at least one
    word is gone per drawing call. *)
Definition accounted (w w' : World) : Prop :=
  crypto w' = crypto w /\
  (crypto w = false ->
     words w' = words w /\
     (length (randoms w) + drawing_calls (calls w) =
      length (randoms w') + drawing_calls (calls w'))%nat) /\
  (crypto w = true ->
     randoms w' = randoms w /\
     (length (words w') + drawing_calls (calls w') <=
      length (words w) + drawing_calls (calls w))%nat).

(** ** The page (script.js, lines 67-74)

    What the script reads and writes of the document: the length input
    with its [min] and [max], the four checkboxes, the password field,
    the two buttons, the alerts shown so far and the pending timers. *)

Inductive ButtonId : Type := GenerateBtn | CopyBtn.

Record Button : Type := MkButton { textContent : string; disabled : bool }.

(** A callback that showTemporaryMessage handed to [setTimeout]: after
    [timer_ms] milliseconds it gives the button its [timer_original]
    text back. *)
Record Timer : Type := MkTimer {
  timer_button : ButtonId;
  timer_original : string;
  timer_ms : Z
}.

Record Page : Type := MkPage {
  length_value : string;
  length_min : string;
  length_max : string;
  upper_checked : bool;
  lower_checked : bool;
  numbers_checked : bool;
  symbols_checked : bool;
  password_value : string;
  password_selected : bool;
  generate_button : Button;
  copy_button : Button;
  alerts : list string;
  timers : list Timer
}.

Definition get_button (b : ButtonId) (pg : Page) : Button :=
  match b with
  | GenerateBtn => generate_button pg
  | CopyBtn => copy_button pg
  end.

Definition set_button (b : ButtonId) (st : Button) (pg : Page) : Page :=
  MkPage (length_value pg) (length_min pg) (length_max pg)
    (upper_checked pg) (lower_checked pg) (numbers_checked pg) (symbols_checked pg)
    (password_value pg) (password_selected pg)
    (match b with GenerateBtn => st | CopyBtn => generate_button pg end)
    (match b with GenerateBtn => copy_button pg | CopyBtn => st end)
    (alerts pg) (timers pg).

(** [setTimeout(callback, ms)] *)
Definition setTimeout (t : Timer) (pg : Page) : Page :=
  MkPage (length_value pg) (length_min pg) (length_max pg)
    (upper_checked pg) (lower_checked pg) (numbers_checked pg) (symbols_checked pg)
    (password_value pg) (password_selected pg)
    (generate_button pg) (copy_button pg)
    (alerts pg) (timers pg ++ [t]).

(** [alert(msg)] *)
Definition alert (msg : string) (pg : Page) : Page :=
  MkPage (length_value pg) (length_min pg) (length_max pg)
    (upper_checked pg) (lower_checked pg) (numbers_checked pg) (symbols_checked pg)
    (password_value pg) (password_selected pg)
    (generate_button pg) (copy_button pg)
    (alerts pg ++ [msg]) (timers pg).

(** [passwordField.value = password; passwordField.focus();
    passwordField.select()] *)
Definition show_password (password : string) (pg : Page) : Page :=
  MkPage (length_value pg) (length_min pg) (length_max pg)
    (upper_checked pg) (lower_checked pg) (numbers_checked pg) (symbols_checked pg)
    password true
    (generate_button pg) (copy_button pg)
    (alerts pg) (timers pg).

(** ** showTemporaryMessage (script.js, lines 76-84) *)

Definition showTemporaryMessage (button : ButtonId) (text : string) (ms : Z)
    (pg : Page) : Page :=
  let original := textContent (get_button button pg) in
  let pg := set_button button (MkButton text (disabled (get_button button pg))) pg in
  let pg := set_button button (MkButton (textContent (get_button button pg)) true) pg in
  setTimeout (MkTimer button original ms) pg.

(** The callback of lines 80-83, when its timer fires. *)
Definition timeout_callback (t : Timer) (pg : Page) : Page :=
  let button := timer_button t in
  let pg :=
    set_button button
      (MkButton (timer_original t) (disabled (get_button button pg))) pg in
  set_button button (MkButton (textContent (get_button button pg)) false) pg.

(** ** The click handler of the generate button (script.js, lines 86-114)

    [parseInt] is the host's: it gives an integer, or [None] for NaN. *)

(** [n || 0] on a number. *)
Definition number_or_zero (n : option Z) : Z := default 0 n.

(** [s || d] on a string. *)
Definition string_or (s d : string) : string :=
  if decide (s = EmptyString) then d else s.

(** [a < b] and [a > b] where [b] may be NaN. *)
Definition less_than (a : Z) (b : option Z) : bool :=
  match b with
  | Some b => a <? b
  | None => false
  end.

Definition greater_than (a : Z) (b : option Z) : bool :=
  match b with
  | Some b => b <? a
  | None => false
  end.

Definition range_message (pg : Page) : string :=
  "Please choose a length between " +:+ length_min pg +:+ " and " +:+
  length_max pg +:+ ".".

Definition page_length (parseInt : string -> option Z) (pg : Page) : Z :=
  number_or_zero (parseInt (length_value pg)).

Definition page_options (pg : Page) : Options :=
  MkOptions (upper_checked pg) (lower_checked pg)
    (numbers_checked pg) (symbols_checked pg).

Definition on_generate_click (parseInt : string -> option Z) (pg : Page)
  : M Page := fun w =>
  let length := page_length parseInt pg in
  let opts := page_options pg in
  if less_than length (parseInt (string_or (length_min pg) "4"))
     || greater_than length (parseInt (string_or (length_max pg) "128"))
  then Some (alert (range_message pg) pg, w)
  else if negb (upper opts) && negb (lower opts)
          && negb (numbers opts) && negb (symbols opts)
  then Some (alert "Please select at least one character type." pg, w)
  else
    match generatePassword length opts w with
    | Some (Return password, w') =>
        Some (showTemporaryMessage GenerateBtn "Generated!" 1400
                (show_password password pg), w')
    | Some (Throw message, w') =>
        Some (alert (string_or message "Could not generate password.") pg, w')
    | None => None
    end.

(** A [parseInt] for the examples: decimal digits only. *)
Fixpoint digits_value (acc : Z) (s : string) : option Z :=
  match s with
  | EmptyString => Some acc
  | String c s' =>
      let n := Z.of_nat (Ascii.nat_of_ascii c) - 48 in
      if (0 <=? n) && (n <=? 9) then digits_value (10 * acc + n) s' else None
  end.

Definition sample_parseInt (s : string) : option Z :=
  match s with
  | EmptyString => None
  | _ => digits_value 0 s
  end.

Definition sample_page : Page :=
  MkPage "4" "4" "128" true true true true EmptyString false
    (MkButton "Generate" false) (MkButton "Copy" false) [] [].

(** A page whose length input allows lengths from 1. *)
Definition lenient_page : Page :=
  MkPage "2" "1" "128" true true true false EmptyString false
    (MkButton "Generate" false) (MkButton "Copy" false) [] [].

(** ** Sample requests and worlds *)

Definition three_classes : Options := MkOptions true true true false.
Definition all_classes : Options := MkOptions true true true true.
Definition no_class : Options := MkOptions false false false false.

Definition sample_words : list Z := [4294967295; 1; 4294967296; 6; 7; 8; 9; 10; 11].
Definition sample_world : World := crypto_world sample_words.
Definition sample_end : World := MkWorld true [11] [] [26; 26; 10; 29; 4; 3; 2].

(** A world on the fallback path: the values 3/17, 4/17, ..., 14/17. *)
Definition fallback_sample : World :=
  fallback_world
    (map (fun k => Unit01 (N.of_nat k) (Pos.of_nat (17 - k))) (seq 3 12)).

Definition fallback_sample_end : World :=
  MkWorld false [] [Unit01 14 3] [26; 26; 10; 62; 62; 62; 6; 5; 4; 3; 2].

(** * Properties *)

(** ** Reasoning about computations *)

Lemma bind_Some {A B} (m : M A) (k : A -> M B) w b w'' :
  bind m k w = Some (b, w'') <->
  exists a w', m w = Some (a, w') /\ k a w' = Some (b, w'').
Proof.
  unfold bind. split.
  - destruct (m w) as [[a w']|]; [eauto | discriminate].
  - intros (a & w' & -> & Hk). exact Hk.
Qed.

Lemma ensures_ret {A} (a : A) (Q : A -> Prop) : Q a -> ensures (ret a) Q.
Proof. intros HQ w a' w' [= <- _]. exact HQ. Qed.

Lemma ensures_bind {A B} (m : M A) (k : A -> M B) (Q : A -> Prop) (R : B -> Prop) :
  ensures m Q -> (forall a, Q a -> ensures (k a) R) -> ensures (bind m k) R.
Proof.
  intros Hm Hk w b w'' (a & w' & Ha & Hb)%bind_Some.
  exact (Hk a (Hm _ _ _ Ha) _ _ _ Hb).
Qed.

Lemma ensures_weaken {A} (m : M A) (Q R : A -> Prop) :
  ensures m Q -> (forall a, Q a -> R a) -> ensures m R.
Proof. intros Hm HQR w a w' Ha. eauto. Qed.

Lemma logs_ret {A} (a : A) : logs (ret a) [].
Proof. intros w a' w' [= _ <-]. by rewrite app_nil_r. Qed.

Lemma logs_bind {A B} (m : M A) (k : A -> M B) (Q : A -> Prop) t1 t2 :
  ensures m Q -> logs m t1 -> (forall a, Q a -> logs (k a) t2) ->
  logs (bind m k) (t1 ++ t2).
Proof.
  intros HQ Hm Hk w b w'' (a & w' & Ha & Hb)%bind_Some.
  rewrite (Hk _ (HQ _ _ _ Ha) _ _ _ Hb), (Hm _ _ _ Ha). by rewrite app_assoc.
Qed.

Lemma ensures_True {A} (m : M A) : ensures m (fun _ => True).
Proof. done. Qed.

(** ** The rejection threshold *)

Lemma uint32Max_eq : uint32Max = 2 ^ 32 - 1.
Proof. reflexivity. Qed.

Lemma bound_eq max : max <> 0 -> bound max = uint32Max - uint32Max mod max.
Proof.
  intros Hmax. unfold bound.
  pose proof (Z.div_mod uint32Max max Hmax). lia.
Qed.

Lemma bound_le max : 0 < max -> bound max <= uint32Max.
Proof.
  intros Hmax. rewrite bound_eq by lia.
  pose proof (Z.mod_pos_bound uint32Max max Hmax). lia.
Qed.

Lemma bound_ge max : 0 < max -> 2 ^ 32 - max <= bound max.
Proof.
  intros Hmax. rewrite bound_eq by lia.
  pose proof (Z.mod_pos_bound uint32Max max Hmax) as Hmod.
  rewrite uint32Max_eq in *. lia.
Qed.

Lemma bound_beyond max : uint32Max < max -> bound max = 0.
Proof.
  intros Hmax. unfold bound.
  rewrite Z.div_small; [lia | rewrite uint32Max_eq in *; lia].
Qed.

Lemma bound_multiple max : (max | bound max).
Proof. unfold bound. apply Z.divide_factor_r. Qed.

Lemma to_uint32_range x : 0 <= to_uint32 x < 2 ^ 32.
Proof. unfold to_uint32. apply Z.mod_pos_bound. lia. Qed.

(** ** The rejection loop *)

Lemma draw_until_Some max bnd ws v rest :
  draw_until max bnd ws = Some (v, rest) <->
  exists rejected x,
    ws = rejected ++ x :: rest /\
    Forall (fun y => bnd <= to_uint32 y) rejected /\
    to_uint32 x < bnd /\
    v = Z.rem (to_uint32 x) max.
Proof.
  split.
  - induction ws as [|y ws IH]; simpl; [discriminate|].
    destruct (Z.ltb_spec (to_uint32 y) bnd) as [Hlt|Hge].
    + intros [= <- <-]. exists [], y. by repeat split.
    + intros (rej & x & -> & Hrej & Hx & ->)%IH.
      exists (y :: rej), x. repeat split; [by constructor | done].
  - intros (rej & x & -> & Hrej & Hx & ->).
    induction Hrej as [|y rej Hy _ IH]; simpl.
    + by destruct (Z.ltb_spec (to_uint32 x) bnd); [|lia].
    + by destruct (Z.ltb_spec (to_uint32 y) bnd); [lia|].
Qed.

Lemma draw_until_None max bnd ws :
  draw_until max bnd ws = None <-> Forall (fun y => bnd <= to_uint32 y) ws.
Proof.
  induction ws as [|y ws IH]; simpl.
  - split; [constructor | done].
  - destruct (Z.ltb_spec (to_uint32 y) bnd) as [Hlt|Hge].
    + split; [discriminate|]. intros [? _]%Forall_cons. lia.
    + rewrite IH. split; [by constructor | by intros [_ ?]%Forall_cons].
Qed.

Lemma rem_range x max : 0 <= x -> 0 < max -> 0 <= Z.rem x max < max.
Proof. intros Hx Hmax. rewrite Z.rem_mod_nonneg by lia. by apply Z.mod_pos_bound. Qed.

Lemma random_double_bounds u m e :
  random_double u = (m, e) -> 0 <= m < 2 ^ 53 /\ 53 <= e.
Proof.
  unfold random_double.
  set (n := Z.of_N (u_num u)). set (d := n + Z.pos (u_gap u)).
  assert (0 <= n) by (subst n; lia). assert (n < d) by (subst d; lia).
  destruct (Z.eqb_spec n 0) as [Hn0|Hn0]; [intros [= <- <-]; lia|].
  set (j := Z.log2 ((d - 1) / n)). intros [= <- <-].
  assert (1 <= (d - 1) / n) as Hquot by (apply Z.div_le_lower_bound; lia).
  assert (0 <= j) as Hj by apply Z.log2_nonneg.
  assert (2 ^ j <= (d - 1) / n) as Hpow by (apply Z.log2_spec; lia).
  assert (n * ((d - 1) / n) <= d - 1) as Hmul by (apply Z.mul_div_le; lia).
  assert (0 < 2 ^ Z.min 1074 (53 + j)) as Hpos by (apply Z.pow_pos_nonneg; lia).
  assert (2 ^ Z.min 1074 (53 + j) <= 2 ^ 53 * 2 ^ j) as Hle.
  { rewrite <-Z.pow_add_r by lia. apply Z.pow_le_mono_r; lia. }
  split; [|lia]. split.
  - apply Z.div_pos; nia.
  - apply Z.div_lt_upper_bound; [lia|]. nia.
Qed.

(** Rounding moves a number by at most half a unit of the last kept
    place, and this half unit is at most [n / 2^53]. *)
Lemma round_to_double_near n :
  0 <= n ->
  0 <= round_to_double n /\
  exists h, 0 <= h /\ 2 ^ 53 * h <= n /\ round_to_double n <= n + h.
Proof.
  intros Hn. unfold round_to_double.
  destruct (Z.ltb_spec n (2 ^ 53)) as [Hsmall|Hbig].
  { split; [done|]. exists 0. lia. }
  assert (53 <= Z.log2 n) as Hlog by (apply Z.log2_le_pow2; lia).
  set (s := Z.log2 n - 52).
  assert (2 ^ Z.log2 n <= n) as Hspec by (apply Z.log2_spec; lia).
  set (h := 2 ^ (s - 1)).
  assert (0 < h) as Hh by (apply Z.pow_pos_nonneg; lia).
  assert (2 ^ s = 2 * h) as Hs.
  { subst h. rewrite <-Z.pow_succ_r by lia. f_equal. lia. }
  assert (2 ^ Z.log2 n = 2 ^ 53 * h) as Hsplit.
  { subst h. rewrite <-Z.pow_add_r by lia. f_equal. lia. }
  rewrite Hs.
  pose proof (Z.div_mod n (2 * h) ltac:(lia)) as Hdm.
  pose proof (Z.mod_pos_bound n (2 * h) ltac:(lia)) as Hr.
  assert (0 <= n / (2 * h)) as Hq by (apply Z.div_pos; lia).
  split.
  - destruct (_ || _); nia.
  - exists h. split; [lia|]. split; [lia|].
    destruct (Z.ltb_spec (2 * h) (2 * (n mod (2 * h)))) as [Hover|Hunder].
    + simpl. lia.
    + destruct (Z.eqb_spec (2 * (n mod (2 * h))) (2 * h)) as [Hhalf|Hless];
        simpl; [destruct (Z.odd _)|]; lia.
Qed.

Lemma scale_range u max : 0 < max -> 0 <= scale u max < max.
Proof.
  intros Hmax. unfold scale.
  destruct (random_double u) as [m e] eqn:Hu.
  apply random_double_bounds in Hu as [[Hm0 Hm] He].
  assert (0 < 2 ^ e) as Hpos by (apply Z.pow_pos_nonneg; lia).
  assert (2 ^ 53 <= 2 ^ e) as Hpow by (apply Z.pow_le_mono_r; lia).
  assert (0 <= m * max) as Hn by nia.
  destruct (round_to_double_near (m * max) Hn) as (Hr0 & h & Hh0 & Hh & Hr).
  split.
  - by apply Z.div_pos.
  - apply Z.div_lt_upper_bound; [done|]. nia.
Qed.

(** ** What a call of getSecureRandomInt does *)

Lemma getSecureRandomInt_nonpos max w :
  max <= 0 -> getSecureRandomInt max w = Some (0, log_call max w).
Proof.
  intros Hmax. unfold getSecureRandomInt.
  by destruct (Z.leb_spec max 0); [|lia].
Qed.

Lemma getSecureRandomInt_crypto max w :
  0 < max -> crypto w = true ->
  getSecureRandomInt max w =
    match draw_until max (bound max) (words w) with
    | Some (v, rest) => Some (v, log_call max (set_words rest w))
    | None => None
    end.
Proof.
  intros Hmax Hc. unfold getSecureRandomInt. rewrite Hc.
  by destruct (Z.leb_spec max 0); [lia|].
Qed.

Lemma getSecureRandomInt_fallback max w :
  0 < max -> crypto w = false ->
  getSecureRandomInt max w =
    match randoms w with
    | u :: us => Some (scale u max, log_call max (set_randoms us w))
    | [] => None
    end.
Proof.
  intros Hmax Hc. unfold getSecureRandomInt. rewrite Hc.
  by destruct (Z.leb_spec max 0); [lia|].
Qed.

Lemma getSecureRandomInt_in_range max :
  0 < max -> ensures (getSecureRandomInt max) (fun v => 0 <= v < max).
Proof.
  intros Hmax w v w'. destruct (crypto w) eqn:Hc.
  - rewrite getSecureRandomInt_crypto by done.
    destruct (draw_until _ _ _) as [[v0 rest]|] eqn:E; [|done].
    intros [= <- _].
    apply draw_until_Some in E as (_ & x & _ & _ & _ & ->).
    apply rem_range; [apply to_uint32_range | done].
  - rewrite getSecureRandomInt_fallback by done.
    destruct (randoms w) as [|u us]; [done|].
    intros [= <- _]. by apply scale_range.
Qed.

Lemma getSecureRandomInt_logs max : logs (getSecureRandomInt max) [max].
Proof.
  intros w v w'. unfold getSecureRandomInt.
  destruct (max <=? 0); [by intros [= _ <-]|].
  destruct (crypto w).
  - destruct (draw_until _ _ _) as [[v0 rest]|]; [|done]. by intros [= _ <-].
  - destruct (randoms w) as [|u us]; [done|]. by intros [= _ <-].
Qed.

(** ** Supply and progress *)

Lemma runs_ret {A} hi (a : A) : runs 0 hi (ret a).
Proof. intros w k Hk. exists a, w. by split. Qed.

Lemma runs_bind {A B} n1 n2 hi (m : M A) (k : A -> M B) (Q : A -> Prop) :
  ensures m Q -> runs n1 hi m -> (forall a, Q a -> runs n2 hi (k a)) ->
  runs (n1 + n2) hi (bind m k).
Proof.
  intros HQ Hm Hk w j Hj.
  destruct (Hm w (n2 + j)%nat) as (a & w' & Ha & Hs); [lia|].
  destruct (Hk a (HQ _ _ _ Ha) w' j Hs) as (b & w'' & Hb & Hs').
  exists b, w''. split; [|done]. apply bind_Some. eauto.
Qed.

Lemma draw_until_supply max hi ws k :
  0 < max <= hi ->
  (1 + k <= length (filter (welcome hi) ws))%nat ->
  exists v rest,
    draw_until max (bound max) ws = Some (v, rest) /\
    (k <= length (filter (welcome hi) rest))%nat.
Proof.
  intros Hmax. pose proof (bound_ge max) as Hb.
  induction ws as [|x ws IH]; simpl; [lia|].
  rewrite filter_cons.
  destruct (Z.ltb_spec (to_uint32 x) (bound max)) as [Hlt|Hge].
  - intros Hk. exists (Z.rem (to_uint32 x) max), ws. split; [done|].
    case_decide; simpl in Hk; lia.
  - case_decide as Hw; [unfold welcome in Hw; lia|]. exact IH.
Qed.

Lemma runs_getSecureRandomInt max hi :
  0 < max <= hi -> runs 1 hi (getSecureRandomInt max).
Proof.
  intros Hmax w k. unfold supply. destruct (crypto w) eqn:Hc.
  - intros (v & rest & E & Hk)%(draw_until_supply max); [|done].
    rewrite getSecureRandomInt_crypto, E by (done || lia).
    eexists _, _. split; [done|]. simpl. by rewrite Hc.
  - rewrite getSecureRandomInt_fallback by (done || lia).
    destruct (randoms w) as [|u us]; simpl; [lia|]. intros Hk.
    eexists _, _. split; [done|]. simpl. rewrite Hc. simpl. lia.
Qed.

(** ** Replay *)

Lemma replays_ret {A} (a : A) : replays (ret a).
Proof.
  intros w a' w' [= <- <-]. split; [done|].
  exists [], []. repeat split. intros rw rr cs. by exists cs.
Qed.

Lemma replays_bind {A B} (m : M A) (k : A -> M B) :
  replays m -> (forall a, replays (k a)) -> replays (bind m k).
Proof.
  intros Hm Hk w b w'' (a & w' & Ha & Hb)%bind_Some.
  destruct (Hm _ _ _ Ha) as (Hc1 & p1 & q1 & Hp1 & Hq1 & R1).
  destruct (Hk _ _ _ _ Hb) as (Hc2 & p2 & q2 & Hp2 & Hq2 & R2).
  split; [congruence|].
  exists (p1 ++ p2), (q1 ++ q2).
  split; [by rewrite <-app_assoc, <-Hp2|].
  split; [by rewrite <-app_assoc, <-Hq2|].
  intros rw rr cs.
  destruct (R1 (p2 ++ rw) (q2 ++ rr) cs) as (cs1 & E1).
  destruct (R2 rw rr cs1) as (cs2 & E2).
  exists cs2. unfold bind. rewrite <-!app_assoc, E1.
  by rewrite Hc1 in E2.
Qed.

Lemma replays_getSecureRandomInt max : replays (getSecureRandomInt max).
Proof.
  intros w v w'. destruct (Z.le_gt_cases max 0) as [Hmax|Hmax].
  { rewrite getSecureRandomInt_nonpos by done. intros [= <- <-].
    split; [done|]. exists [], []. repeat split. intros rw rr cs.
    eexists. by rewrite getSecureRandomInt_nonpos. }
  destruct (crypto w) eqn:Hc.
  - rewrite getSecureRandomInt_crypto by done.
    destruct (draw_until _ _ _) as [[v0 rest]|] eqn:E; [|done].
    intros [= <- <-]. split; [done|].
    apply draw_until_Some in E as (rej & x & Hws & Hrej & Hx & Hv).
    exists (rej ++ [x]), []. split; [by rewrite <-app_assoc|]. split; [done|].
    intros rw rr cs. eexists.
    rewrite getSecureRandomInt_crypto by done. simpl.
    assert (draw_until max (bound max) ((rej ++ [x]) ++ rw) = Some (v0, rw))
      as ->; [|done].
    apply draw_until_Some. exists rej, x. by rewrite <-app_assoc.
  - rewrite getSecureRandomInt_fallback by done.
    destruct (randoms w) as [|u us] eqn:Hus; [done|].
    intros [= <- <-]. split; [done|].
    exists [], [u]. repeat split. intros rw rr cs. eexists.
    by rewrite getSecureRandomInt_fallback.
Qed.

(** ** Strings *)

Lemma chars_length s : length (chars s) = String.length s.
Proof. induction s as [|c s IH]; simpl; [done | by rewrite IH]. Qed.

Lemma chars_get s n : String.get n s = chars s !! n.
Proof.
  revert n. induction s as [|c s IH]; intros [|n]; simpl; done.
Qed.

Lemma chars_append s1 s2 : chars (s1 +:+ s2) = chars s1 ++ chars s2.
Proof. induction s1 as [|c s1 IH]; simpl; [done | by rewrite IH]. Qed.

Lemma chars_concat l : chars (String.concat EmptyString l) = concat (map chars l).
Proof.
  induction l as [|s l IH]; [done|].
  destruct l as [|s' l].
  - simpl. by rewrite app_nil_r.
  - change (String.concat EmptyString (s :: s' :: l))
      with (s +:+ (EmptyString +:+ String.concat EmptyString (s' :: l))).
    rewrite chars_append, chars_append, IH. done.
Qed.

Lemma charAt_cell str i :
  0 <= i < str_length str -> cell_in str (Some (charAt str i)).
Proof.
  intros [Hlo Hhi]. unfold charAt, str_length in *.
  destruct (Z.ltb_spec i 0); [lia|].
  rewrite chars_get.
  destruct (chars str !! Z.to_nat i) as [c|] eqn:E.
  - exists c. split; [done|]. by eapply list_elem_of_lookup_2.
  - apply lookup_ge_None in E. rewrite chars_length in E. lia.
Qed.

Lemma pickRandomChar_cell str :
  0 < str_length str ->
  ensures (pickRandomChar str) (fun c => cell_in str (Some c)).
Proof.
  intros Hlen. unfold pickRandomChar.
  eapply ensures_bind; [by apply getSecureRandomInt_in_range|].
  intros i Hi. apply ensures_ret. by apply charAt_cell.
Qed.

Lemma join_chars (a : array string) (pool : string) :
  Forall (cell_in pool) a ->
  length (chars (join a)) = length a /\
  (forall c, c ∈ chars (join a) <-> Some (String c EmptyString) ∈ a).
Proof.
  unfold join. rewrite chars_concat.
  induction 1 as [|cell a (c & -> & Hc) _ [IHl IHc]]; simpl.
  - split; [done|]. intros c. by rewrite !elem_of_nil.
  - split; [by rewrite IHl|]. intros c'.
    rewrite !elem_of_cons, IHc. split; intros [H|H]; auto; left; congruence.
Qed.

(** ** Arrays *)

Section ArrayFacts.
Context {A : Type}.
Implicit Types a : array A.

Lemma arr_get_lookup a (i : nat) cell :
  a !! i = Some cell -> arr_get a (Z.of_nat i) = cell.
Proof.
  intros Hi. unfold arr_get.
  destruct (Z.ltb_spec (Z.of_nat i) 0); [lia|].
  by rewrite Nat2Z.id, Hi.
Qed.

Lemma arr_set_inside a (i : nat) v :
  (i < length a)%nat -> arr_set a (Z.of_nat i) v = <[i := v]> a.
Proof.
  intros Hi. unfold arr_set.
  destruct (Z.ltb_spec (Z.of_nat i) 0); [lia|].
  destruct (Z.ltb_spec (Z.of_nat i) (Z.of_nat (length a))); [|lia].
  by rewrite Nat2Z.id.
Qed.

(** Inside the array the destructuring assignment exchanges two cells. *)
Lemma swap_inside a (i j : nat) x y :
  a !! i = Some x -> a !! j = Some y ->
  swap a (Z.of_nat i) (Z.of_nat j) = <[j := x]> (<[i := y]> a).
Proof.
  intros Hi Hj. unfold swap.
  rewrite (arr_get_lookup _ _ _ Hi), (arr_get_lookup _ _ _ Hj).
  rewrite (arr_set_inside a i) by eauto using lookup_lt_Some.
  rewrite arr_set_inside; [done|].
  rewrite length_insert. eauto using lookup_lt_Some.
Qed.

Lemma swap_Permutation a (i : nat) (j : Z) :
  (i < length a)%nat -> 0 <= j < Z.of_nat i + 1 ->
  swap a (Z.of_nat i) j ≡ₚ a.
Proof.
  intros Hi Hj.
  destruct (lookup_lt_is_Some_2 a i Hi) as [x Hx].
  destruct (lookup_lt_is_Some_2 a (Z.to_nat j)) as [y Hy]; [lia|].
  rewrite <-(Z2Nat.id j) by lia.
  rewrite (swap_inside _ _ _ _ _ Hx Hy).
  by apply Permutation_insert_swap.
Qed.

Lemma shuffle_from_Permutation (i : nat) a :
  (i < length a \/ i = 0)%nat ->
  ensures (shuffle_from i a) (fun a' => a' ≡ₚ a).
Proof.
  revert a. induction i as [|i IH]; intros a Hi.
  - by apply ensures_ret.
  - cbn [shuffle_from]. eapply ensures_bind.
    { apply getSecureRandomInt_in_range. lia. }
    intros j Hj. cbv beta in Hj.
    assert (swap a (Z.of_nat (S i)) j ≡ₚ a) as Hswap
      by (apply swap_Permutation; lia).
    eapply ensures_weaken.
    + apply IH. rewrite (Permutation_length Hswap). lia.
    + intros a' Ha'. by rewrite Ha'.
Qed.

Lemma shuffleArray_Permutation a :
  ensures (shuffleArray a) (fun a' => a' ≡ₚ a).
Proof.
  apply shuffle_from_Permutation. destruct a; simpl; lia.
Qed.
End ArrayFacts.

(** ** pickRandomChar and the two picking loops *)

Lemma pickRandomChar_logs str : logs (pickRandomChar str) [str_length str].
Proof.
  change [str_length str] with ([str_length str] ++ []).
  eapply logs_bind;
    [apply ensures_True | apply getSecureRandomInt_logs | intros; apply logs_ret].
Qed.

Lemma pickRandomChar_runs str hi :
  0 < str_length str <= hi -> runs 1 hi (pickRandomChar str).
Proof.
  intros Hlen. change 1%nat with (1 + 0)%nat.
  eapply runs_bind;
    [apply ensures_True | by apply runs_getSecureRandomInt
    | intros; apply runs_ret].
Qed.

Lemma pickRandomChar_replays str : replays (pickRandomChar str).
Proof.
  apply replays_bind; [apply replays_getSecureRandomInt|].
  intros i. apply replays_ret.
Qed.

Lemma guaranteed_cells pools result :
  Forall (fun pool => 0 < str_length pool) pools ->
  ensures (guaranteed pools result)
    (fun r => exists cells, r = result ++ cells /\ Forall2 cell_in pools cells).
Proof.
  intros Hpools. revert result.
  induction Hpools as [|pool pools Hpool _ IH]; intros result.
  - apply ensures_ret. exists []. by rewrite app_nil_r.
  - cbn [guaranteed]. eapply ensures_bind; [by apply pickRandomChar_cell|].
    intros c Hc. eapply ensures_weaken; [apply IH|].
    intros r (cells & -> & Hcells). exists (Some c :: cells).
    split; [unfold push; by rewrite <-app_assoc | by constructor].
Qed.

Lemma guaranteed_logs pools result :
  logs (guaranteed pools result) (map str_length pools).
Proof.
  revert result. induction pools as [|pool pools IH]; intros result.
  - apply logs_ret.
  - cbn [guaranteed]. change (map str_length (pool :: pools))
      with ([str_length pool] ++ map str_length pools).
    eapply logs_bind; [apply ensures_True | apply pickRandomChar_logs | auto].
Qed.

Lemma guaranteed_runs pools result hi :
  Forall (fun pool => 0 < str_length pool <= hi) pools ->
  runs (length pools) hi (guaranteed pools result).
Proof.
  intros Hpools. revert result.
  induction Hpools as [|pool pools Hpool _ IH]; intros result.
  - apply runs_ret.
  - cbn [guaranteed]. change (length (pool :: pools)) with (1 + length pools)%nat.
    eapply runs_bind; [apply ensures_True | by apply pickRandomChar_runs | auto].
Qed.

Lemma guaranteed_replays pools result : replays (guaranteed pools result).
Proof.
  revert result. induction pools as [|pool pools IH]; intros result.
  - apply replays_ret.
  - cbn [guaranteed]. apply replays_bind; [apply pickRandomChar_replays | auto].
Qed.

Lemma fill_cells n combined result :
  0 < str_length combined ->
  ensures (fill n combined result)
    (fun r => exists cells,
       r = result ++ cells /\ length cells = n /\
       Forall (cell_in combined) cells).
Proof.
  intros Hlen. revert result. induction n as [|n IH]; intros result.
  - apply ensures_ret. exists []. by rewrite app_nil_r.
  - cbn [fill]. eapply ensures_bind; [by apply pickRandomChar_cell|].
    intros c Hc. eapply ensures_weaken; [apply IH|].
    intros r (cells & -> & Hn & Hcells). exists (Some c :: cells).
    split; [unfold push; by rewrite <-app_assoc|].
    split; [simpl; by rewrite Hn | by constructor].
Qed.

Lemma fill_logs n combined result :
  logs (fill n combined result) (replicate n (str_length combined)).
Proof.
  revert result. induction n as [|n IH]; intros result.
  - apply logs_ret.
  - cbn [fill]. change (replicate (S n) (str_length combined))
      with ([str_length combined] ++ replicate n (str_length combined)).
    eapply logs_bind; [apply ensures_True | apply pickRandomChar_logs | auto].
Qed.

Lemma fill_runs n combined result hi :
  0 < str_length combined <= hi -> runs n hi (fill n combined result).
Proof.
  intros Hlen. revert result. induction n as [|n IH]; intros result.
  - apply runs_ret.
  - cbn [fill]. change (S n) with (1 + n)%nat.
    eapply runs_bind; [apply ensures_True | by apply pickRandomChar_runs | auto].
Qed.

Lemma fill_replays n combined result : replays (fill n combined result).
Proof.
  revert result. induction n as [|n IH]; intros result.
  - apply replays_ret.
  - cbn [fill]. apply replays_bind; [apply pickRandomChar_replays | auto].
Qed.

(** ** The draws of the shuffle loop *)

Lemma shuffle_bounds_length i : length (shuffle_bounds i) = i.
Proof. induction i as [|i IH]; [done|]. cbn [shuffle_bounds length]. by rewrite IH. Qed.

Section ShuffleFacts.
Context {A : Type}.
Implicit Types a : array A.

Lemma shuffle_from_logs i a : logs (shuffle_from i a) (shuffle_bounds i).
Proof.
  revert a. induction i as [|i IH]; intros a.
  - apply logs_ret.
  - cbn [shuffle_from shuffle_bounds].
    change (?x :: ?l) with ([x] ++ l).
    eapply logs_bind;
      [apply ensures_True | apply getSecureRandomInt_logs | auto].
Qed.

Lemma shuffle_from_runs i a hi :
  Z.of_nat i + 1 <= hi -> runs i hi (shuffle_from i a).
Proof.
  revert a. induction i as [|i IH]; intros a Hi.
  - apply runs_ret.
  - cbn [shuffle_from]. change (S i) with (1 + i)%nat at 1.
    eapply runs_bind; [apply ensures_True | |].
    + apply runs_getSecureRandomInt. lia.
    + intros j _. apply IH. lia.
Qed.

Lemma shuffle_from_replays i a : replays (shuffle_from i a).
Proof.
  revert a. induction i as [|i IH]; intros a.
  - apply replays_ret.
  - cbn [shuffle_from].
    apply replays_bind; [apply replays_getSecureRandomInt | auto].
Qed.
End ShuffleFacts.

(** ** Requests *)

Lemma build_pools_selection o : build_pools o = map class_chars (selection o).
Proof. by destruct o as [[] [] [] []]. Qed.

Lemma selection_spec o c : c ∈ selection o <-> selected o c = true.
Proof.
  unfold selection. rewrite list_elem_of_filter.
  split; [by intros [? _]|]. intros Hc. split; [done|].
  destruct c; repeat constructor.
Qed.

Lemma pools_length o : Z.of_nat (length (build_pools o)) = selection_size o.
Proof. unfold selection_size. by rewrite build_pools_selection, length_map. Qed.

Lemma class_chars_length c : 0 < str_length (class_chars c) <= 91.
Proof. by destruct c. Qed.

Lemma pools_bounded o hi :
  91 <= hi -> Forall (fun pool => 0 < str_length pool <= hi) (build_pools o).
Proof.
  intros Hhi. rewrite build_pools_selection. apply Forall_fmap, Forall_forall.
  intros c _. pose proof (class_chars_length c). simpl. lia.
Qed.

Lemma combined_bounded o :
  selection o <> [] ->
  0 < str_length (String.concat EmptyString (build_pools o)) <= 91.
Proof. by destruct o as [[] [] [] []]. Qed.

(** No character belongs to two classes. *)
Lemma class_chars_disjoint c1 c2 ch :
  ch ∈ chars (class_chars c1) -> ch ∈ chars (class_chars c2) -> c1 = c2.
Proof.
  assert (forall d1 d2, d1 <> d2 ->
            Forall (fun x => x ∉ chars (class_chars d2)) (chars (class_chars d1)))
    as Hdisj.
  { intros [] [] Hne; try done; apply (bool_decide_unpack _); by vm_compute. }
  intros H1 H2. destruct (decide (c1 = c2)) as [|Hne]; [done|].
  specialize (Hdisj c1 c2 Hne). rewrite Forall_forall in Hdisj.
  by destruct (Hdisj ch H1).
Qed.

(** ** generatePassword on the three kinds of request *)

Lemma selection_size_pos o : selection o <> [] -> 0 < selection_size o.
Proof. unfold selection_size. destruct (selection o); [done | simpl; lia]. Qed.

Lemma selection_size_zero o : selection o = [] -> selection_size o = 0.
Proof. unfold selection_size. by intros ->. Qed.

Lemma generatePassword_empty len o :
  selection o = [] -> generatePassword len o = ret (Return EmptyString).
Proof.
  intros Hsel. unfold generatePassword.
  rewrite pools_length, (selection_size_zero _ Hsel). done.
Qed.

Lemma generatePassword_short len o :
  selection o <> [] -> len < selection_size o ->
  generatePassword len o =
    ret (Throw "Length too short for selected character types").
Proof.
  intros Hsel%selection_size_pos Hlen. unfold generatePassword.
  rewrite pools_length.
  destruct (Z.eqb_spec (selection_size o) 0); [lia|].
  by destruct (Z.ltb_spec len (selection_size o)); [|lia].
Qed.

Lemma generatePassword_compose len o :
  valid_request len o -> generatePassword len o = compose len (build_pools o).
Proof.
  intros [Hsel%selection_size_pos Hlen]. unfold generatePassword.
  rewrite pools_length.
  destruct (Z.eqb_spec (selection_size o) 0); [lia|].
  by destruct (Z.ltb_spec len (selection_size o)); [lia|].
Qed.

Lemma compose_replays len pools : replays (compose len pools).
Proof.
  apply replays_bind; [apply guaranteed_replays|]. intros r1.
  apply replays_bind; [apply fill_replays|]. intros r2.
  apply replays_bind; [apply shuffle_from_replays|]. intros r3.
  apply replays_ret.
Qed.

Lemma generatePassword_replays len o : replays (generatePassword len o).
Proof.
  unfold generatePassword.
  repeat case_match; apply replays_ret || apply compose_replays.
Qed.

Lemma drafted_ensures len pools :
  pools <> [] -> Z.of_nat (length pools) <= len ->
  Forall (fun pool => 0 < str_length pool) pools ->
  0 < str_length (String.concat EmptyString pools) ->
  ensures
    (result <- guaranteed pools [] ;;
     fill (Z.to_nat (len - Z.of_nat (length result)))
       (String.concat EmptyString pools) result)
    (drafted len pools).
Proof.
  intros Hne Hlen Hpools Hcomb.
  eapply ensures_bind; [by apply guaranteed_cells|].
  intros r1 (cells & -> & Hcells). simpl.
  eapply ensures_weaken; [by apply fill_cells|].
  intros r2 (extra & -> & Hn & Hextra). exists cells, extra.
  repeat split; try done.
  apply Forall2_length in Hcells. rewrite length_app, Hn. lia.
Qed.

(** ** What a password of a valid request looks like *)

Lemma elem_of_concat_chars pools ch :
  ch ∈ concat (map chars pools) <-> exists pool, pool ∈ pools /\ ch ∈ chars pool.
Proof.
  induction pools as [|p pools IH]; simpl.
  - rewrite elem_of_nil. split; [done|]. by intros (? & ?%elem_of_nil & _).
  - rewrite elem_of_app, IH. split.
    + intros [H|(pool & Hp & Hc)].
      * exists p. split; [left | done].
      * exists pool. split; [by right | done].
    + intros (pool & [->|Hp]%elem_of_cons & Hc); [by left | right; eauto].
Qed.

Lemma cell_in_combined pools pool cell :
  pool ∈ pools -> cell_in pool cell ->
  cell_in (String.concat EmptyString pools) cell.
Proof.
  intros Hpool (c & -> & Hc). exists c. split; [done|].
  rewrite chars_concat. apply elem_of_concat_chars. eauto.
Qed.

Lemma Forall2_elem_of_l {X Y} (P : X -> Y -> Prop) l k x :
  Forall2 P l k -> x ∈ l -> exists y, y ∈ k /\ P x y.
Proof.
  induction 1 as [|x' y' l k Hxy _ IH]; [by intros ?%elem_of_nil|].
  intros [->|Hx]%elem_of_cons.
  - exists y'. split; [left | done].
  - destruct (IH Hx) as (y & Hy & HP). exists y. split; [by right | done].
Qed.

Lemma Forall2_elem_of_r {X Y} (P : X -> Y -> Prop) l k y :
  Forall2 P l k -> y ∈ k -> exists x, x ∈ l /\ P x y.
Proof.
  induction 1 as [|x' y' l k Hxy _ IH]; [by intros ?%elem_of_nil|].
  intros [->|Hy]%elem_of_cons.
  - exists x'. split; [left | done].
  - destruct (IH Hy) as (x & Hx & HP). exists x. split; [by right | done].
Qed.

Lemma guaranteed_cells_combined pools cells :
  Forall2 cell_in pools cells ->
  Forall (cell_in (String.concat EmptyString pools)) cells.
Proof.
  intros H. apply Forall_forall. intros cell Hcell.
  destruct (Forall2_elem_of_r _ _ _ _ H Hcell) as (pool & Hpool & Hin).
  by apply (cell_in_combined pools pool).
Qed.

Lemma drafted_covering len o r shuffled :
  drafted len (build_pools o) r -> shuffled ≡ₚ r ->
  covering len o (join shuffled).
Proof.
  intros (cells & extra & -> & Hcells & Hextra & Hlen) Hperm.
  set (combined := String.concat EmptyString (build_pools o)) in *.
  assert (Forall (cell_in combined) shuffled) as Hall.
  { rewrite Hperm. apply Forall_app. split; [|done].
    by apply guaranteed_cells_combined. }
  destruct (join_chars shuffled combined Hall) as [Hjl Hjc].
  assert (forall ch, ch ∈ chars (join shuffled) ->
            exists c, selected o c = true /\ ch ∈ chars (class_chars c)) as Hunion.
  { intros ch Hch%Hjc. rewrite Forall_forall in Hall.
    destruct (Hall _ Hch) as (ch' & [= <-] & Hin).
    unfold combined in Hin. rewrite chars_concat in Hin.
    apply elem_of_concat_chars in Hin as (pool & Hpool & Hin).
    rewrite build_pools_selection in Hpool.
    apply list_elem_of_fmap in Hpool as (c & -> & Hc%selection_spec). eauto. }
  split; [|split; [done|split]].
  - rewrite <-chars_length, Hjl, (Permutation_length Hperm). done.
  - intros c ch Hc Hch Hin. destruct (Hunion ch Hch) as (c' & Hc' & Hin').
    rewrite (class_chars_disjoint _ _ _ Hin Hin') in Hc. congruence.
  - intros c Hc%selection_spec.
    assert (class_chars c ∈ build_pools o) as Hpool.
    { rewrite build_pools_selection. by apply list_elem_of_fmap_2. }
    destruct (Forall2_elem_of_l _ _ _ _ Hcells Hpool) as (cell & Hcell & Hin).
    destruct Hin as (ch & -> & Hin). exists ch. split; [|done].
    apply Hjc. rewrite Hperm. apply elem_of_app. by left.
Qed.

Lemma compose_covering len o :
  valid_request len o ->
  ensures (compose len (build_pools o))
    (fun r => exists pw, r = Return pw /\ covering len o pw).
Proof.
  intros [Hsel Hlen]. unfold compose.
  assert (build_pools o <> []) as Hne.
  { rewrite build_pools_selection. by destruct (selection o). }
  pose proof (drafted_ensures len (build_pools o) Hne) as Hdraft.
  rewrite pools_length in Hdraft. specialize (Hdraft Hlen).
  intros w r w' Hrun.
  apply bind_Some in Hrun as (r1 & w1 & H1 & Hrun).
  apply bind_Some in Hrun as (r2 & w2 & H2 & Hrun).
  apply bind_Some in Hrun as (r3 & w3 & H3 & [= <- _]).
  exists (join r3). split; [done|].
  apply (drafted_covering len o r2).
  - eapply (Hdraft _ _ w r2 w2).
    apply bind_Some. eauto.
  - exact (shuffleArray_Permutation _ _ _ _ H3).
  Unshelve.
  + eapply Forall_impl; [apply (pools_bounded o 91); lia|]. simpl. lia.
  + apply combined_bounded. done.
Qed.

(** ** The draws of a run for a valid request *)

Lemma guaranteed_length pools result :
  Forall (fun pool => 0 < str_length pool) pools ->
  ensures (guaranteed pools result)
    (fun r => length r = (length result + length pools)%nat).
Proof.
  intros Hpools. eapply ensures_weaken; [by apply guaranteed_cells|].
  intros r (cells & -> & Hcells%Forall2_length). rewrite length_app. lia.
Qed.

Lemma fill_length n combined result :
  0 < str_length combined ->
  ensures (fill n combined result) (fun r => length r = (length result + n)%nat).
Proof.
  intros Hlen. eapply ensures_weaken; [by apply fill_cells|].
  intros r (cells & -> & Hn & _). rewrite length_app. lia.
Qed.

Lemma pools_positive o : Forall (fun pool => 0 < str_length pool) (build_pools o).
Proof.
  eapply Forall_impl; [apply (pools_bounded o 91); lia|]. simpl. lia.
Qed.

Lemma compose_logs len o :
  valid_request len o ->
  logs (compose len (build_pools o)) (expected_calls len o).
Proof.
  intros [Hsel Hlen]. unfold compose, expected_calls.
  pose proof (pools_positive o) as Hpos.
  pose proof (combined_bounded o Hsel) as [Hcomb _].
  pose proof (pools_length o) as Hk.
  eapply logs_bind; [by apply guaranteed_length | apply guaranteed_logs|].
  intros r1 Hr1. simpl in Hr1.
  eapply logs_bind; [by apply fill_length | |].
  { rewrite Hr1, Hk. apply fill_logs. }
  intros r2 Hr2. cbv beta in Hr2.
  rewrite <-(app_nil_r (shuffle_bounds _)).
  eapply logs_bind; [apply ensures_True | | intros; apply logs_ret].
  unfold shuffleArray.
  replace (length r2 - 1)%nat with (Z.to_nat len - 1)%nat by lia.
  apply shuffle_from_logs.
Qed.

Lemma expected_calls_length len o :
  valid_request len o ->
  Z.of_nat (length (expected_calls len o)) = 2 * len - 1.
Proof.
  intros [Hsel%selection_size_pos Hlen]. unfold expected_calls.
  pose proof (pools_length o) as Hk.
  rewrite !length_app, length_map, length_replicate, shuffle_bounds_length.
  lia.
Qed.

Lemma compose_runs len o hi :
  valid_request len o -> 91 <= hi -> len <= hi ->
  runs (2 * Z.to_nat len - 1) hi (compose len (build_pools o)).
Proof.
  intros [Hsel Hlen] H91 Hhi. unfold compose.
  pose proof (pools_positive o) as Hpos.
  pose proof (combined_bounded o Hsel) as Hcomb.
  pose proof (pools_length o) as Hk.
  pose proof (selection_size_pos o Hsel) as Hk0.
  replace (2 * Z.to_nat len - 1)%nat
    with (length (build_pools o) +
          (Z.to_nat (len - selection_size o) + ((Z.to_nat len - 1) + 0)))%nat
    by lia.
  eapply runs_bind; [by apply guaranteed_length | |].
  { apply guaranteed_runs, pools_bounded. done. }
  intros r1 Hr1. simpl in Hr1.
  eapply runs_bind; [apply fill_length; lia | |].
  { rewrite Hr1, Hk. apply fill_runs. lia. }
  intros r2 Hr2. cbv beta in Hr2.
  eapply runs_bind; [apply ensures_True | | intros; apply runs_ret].
  unfold shuffleArray.
  replace (length r2 - 1)%nat with (Z.to_nat len - 1)%nat by lia.
  apply shuffle_from_runs. lia.
Qed.

(** ** shuffleArray and the reference shuffle *)

Section Refinement.
Context {A : Type}.
Implicit Types a : array A.

Lemma exchange_length (i j : nat) a : length (exchange i j a) = length a.
Proof.
  unfold exchange. destruct (a !! i), (a !! j); try done.
  by rewrite !length_insert.
Qed.

Lemma swap_exchange a (i : nat) (j : Z) :
  (i < length a)%nat -> 0 <= j < Z.of_nat i + 1 ->
  swap a (Z.of_nat i) j = exchange i (Z.to_nat j) a.
Proof.
  intros Hi Hj.
  destruct (lookup_lt_is_Some_2 a i Hi) as [x Hx].
  destruct (lookup_lt_is_Some_2 a (Z.to_nat j)) as [y Hy]; [lia|].
  rewrite <-(Z2Nat.id j) at 1 by lia.
  rewrite (swap_inside _ _ _ _ _ Hx Hy). unfold exchange. rewrite Hx, Hy.
  destruct (decide (i = Z.to_nat j)) as [Heq|Hne].
  - rewrite <-Heq in *. by simplify_eq.
  - by apply list_insert_insert_ne.
Qed.

Lemma indices_down (i : nat) : reverse (seq 1 (S i)) = S i :: reverse (seq 1 i).
Proof. by rewrite seq_S, reverse_snoc. Qed.

Lemma shuffle_from_reference (i : nat) a w :
  (i < length a \/ i = 0)%nat ->
  shuffle_from i a w = fisher_yates_over (reverse (seq 1 i)) a w.
Proof.
  revert a w. induction i as [|i IH]; intros a w Hi; [done|].
  rewrite indices_down. cbn [shuffle_from fisher_yates_over].
  unfold fisher_yates_step, bind at 2 3.
  replace (Z.of_nat (S i + 1)) with (Z.of_nat (S i) + 1) by lia.
  unfold bind at 1.
  destruct (getSecureRandomInt (Z.of_nat (S i) + 1) w) as [[j w']|] eqn:E;
    [|done].
  apply getSecureRandomInt_in_range in E; [|lia].
  unfold ret at 1. rewrite swap_exchange by lia.
  apply IH. rewrite exchange_length. lia.
Qed.
End Refinement.

(** * The claims of the specification *)

(** ** Composition *)

(** C1. For every valid request, a run of generatePassword that returns
    gives a string of exactly [len] characters, every one of them from a
    selected class and none from an unselected class, with at least one
    character of each selected class; and the run does return once the
    world supplies [2 * len - 1] accepted values. *)
Theorem generatePassword_covering len o w :
  valid_request len o ->
  (forall r w', generatePassword len o w = Some (r, w') ->
     exists pw, r = Return pw /\ covering len o pw) /\
  ((2 * Z.to_nat len - 1 <= supply (Z.max len 91) w)%nat ->
     exists pw w',
       generatePassword len o w = Some (Return pw, w') /\ covering len o pw).
Proof.
  intros Hvalid. rewrite (generatePassword_compose _ _ Hvalid).
  pose proof (compose_covering len o Hvalid) as Hcov.
  split; [intros r w'; apply Hcov|].
  intros Hsupply.
  destruct (compose_runs len o (Z.max len 91) Hvalid) with (w := w) (k := 0%nat)
    as (r & w' & Hrun & _); [lia | lia | lia |].
  destruct (Hcov _ _ _ Hrun) as (pw & -> & Hpw). eauto.
Qed.

Lemma generatePassword_covering_witness :
  valid_request 12 three_classes /\
  (2 * Z.to_nat 12 - 1 <=
     supply (Z.max 12 91) (crypto_world (map Z.of_nat (seq 40 23))))%nat /\
  exists pw w',
    generatePassword 12 three_classes (crypto_world (map Z.of_nat (seq 40 23)))
      = Some (Return pw, w') /\
    covering 12 three_classes pw.
Proof.
  assert (valid_request 12 three_classes) as Hvalid
    by (split; by vm_compute).
  assert (2 * Z.to_nat 12 - 1 <=
     supply (Z.max 12 91) (crypto_world (map Z.of_nat (seq 40 23))))%nat
    as Hsupply by (vm_compute; lia).
  split; [exact Hvalid|]. split; [exact Hsupply|].
  exact (proj2 (generatePassword_covering 12 three_classes _ Hvalid) Hsupply).
Defined.

(** C2, as the code has it. When no class is selected, generatePassword
    returns the empty string for every length: nothing is thrown and
    the world is left as it was. *)
Theorem generatePassword_empty_selection len o w :
  selection o = [] ->
  generatePassword len o w = Some (Return EmptyString, w).
Proof. intros Hsel. by rewrite generatePassword_empty. Qed.

Lemma generatePassword_empty_selection_witness :
  selection no_class = [] /\
  generatePassword 8 no_class (crypto_world [1; 2; 3])
    = Some (Return EmptyString, crypto_world [1; 2; 3]).
Proof.
  assert (selection no_class = []) as Hsel by reflexivity.
  split; [exact Hsel|].
  exact (generatePassword_empty_selection 8 no_class _ Hsel).
Defined.

(** C2 as stated fails: with an empty selection and length 8 the call
    does not end in a thrown error. *)
Lemma generatePassword_empty_selection_counterexample :
  selection no_class = [] /\
  ~ (exists msg w',
       generatePassword 8 no_class (crypto_world [1; 2; 3])
         = Some (Throw msg, w')).
Proof.
  split; [reflexivity|]. intros (msg & w' & H). vm_compute in H. discriminate.
Qed.

(** C3. With a non-empty selection and a length below the number of
    selected classes, generatePassword throws and returns no password. *)
Theorem generatePassword_too_short len o w :
  selection o <> [] -> len < selection_size o ->
  generatePassword len o w
    = Some (Throw "Length too short for selected character types", w).
Proof. intros Hsel Hlen. by rewrite generatePassword_short. Qed.

Lemma generatePassword_too_short_witness :
  selection all_classes <> [] /\ 3 < selection_size all_classes /\
  generatePassword 3 all_classes (crypto_world [1; 2; 3])
    = Some (Throw "Length too short for selected character types",
            crypto_world [1; 2; 3]).
Proof.
  assert (selection all_classes <> []) as Hsel by (by vm_compute).
  assert (3 < selection_size all_classes) as Hlen by (by vm_compute).
  split; [exact Hsel|]. split; [exact Hlen|].
  exact (generatePassword_too_short 3 all_classes _ Hsel Hlen).
Defined.

(** C4. For every invalid request generatePassword ends without a draw:
    the world it leaves is the world it was given (words, Math.random
    values and call log untouched), and no character is generated: the
    call ends in the empty string or in a thrown error. *)
Theorem generatePassword_invalid len o w :
  ~ valid_request len o ->
  exists r,
    generatePassword len o w = Some (r, w) /\
    (r = Return EmptyString \/ exists msg, r = Throw msg).
Proof.
  intros Hinvalid. destruct (decide (selection o = [])) as [Hsel|Hsel].
  - exists (Return EmptyString). rewrite generatePassword_empty by done. auto.
  - destruct (Z.lt_ge_cases len (selection_size o)) as [Hlen|Hlen].
    + eexists. rewrite generatePassword_short by done. eauto.
    + by destruct Hinvalid.
Qed.

Lemma generatePassword_invalid_witness :
  ~ valid_request 3 all_classes /\
  exists r,
    generatePassword 3 all_classes (fallback_world [Unit01 1 2]) 
      = Some (r, fallback_world [Unit01 1 2]) /\
    (r = Return EmptyString \/ exists msg, r = Throw msg).
Proof.
  assert (~ valid_request 3 all_classes) as Hinvalid
    by (intros [_ Hlen]; by vm_compute in Hlen).
  split; [exact Hinvalid|].
  exact (generatePassword_invalid 3 all_classes _ Hinvalid).
Defined.

(** ** Bounded random integers *)

(** C5, as the code has it. For every [max] from 1 to [2^32 - 1], a call
    that returns gives an integer of [[0, max)], which is 0 when [max]
    is 1, and the call returns as soon as the world holds an accepted
    value; the words below [max] are always accepted.  For [max = 0]
    the call returns 0 without a draw. *)
Theorem getSecureRandomInt_range max w :
  0 < max <= uint32Max ->
  getSecureRandomInt 0 w = Some (0, log_call 0 w) /\
  (forall v w', getSecureRandomInt max w = Some (v, w') ->
     0 <= v < max /\ (max = 1 -> v = 0)) /\
  (accepting max w -> exists v w', getSecureRandomInt max w = Some (v, w')) /\
  max <= bound max.
Proof.
  intros [Hpos Hle]. split; [by apply getSecureRandomInt_nonpos|].
  split; [|split].
  - intros v w' Hv%getSecureRandomInt_in_range; [|done]. lia.
  - unfold accepting. destruct (crypto w) eqn:Hc.
    + intros Hex. rewrite getSecureRandomInt_crypto by done.
      destruct (draw_until _ _ _) as [[v rest]|] eqn:E; [eauto|].
      apply draw_until_None in E. apply Exists_exists in Hex as (x & Hx & Hlt).
      rewrite Forall_forall in E. specialize (E x Hx). lia.
    + intros Hne. rewrite getSecureRandomInt_fallback by done.
      destruct (randoms w); [done | eauto].
  - unfold bound.
    assert (1 <= uint32Max / max) by (apply Z.div_le_lower_bound; lia). nia.
Qed.

Lemma getSecureRandomInt_range_witness :
  0 < 1 <= uint32Max /\
  accepting 1 (crypto_world [4294967295; 7]) /\
  exists v w',
    getSecureRandomInt 1 (crypto_world [4294967295; 7]) = Some (v, w') /\
    v = 0.
Proof.
  assert (0 < 1 <= uint32Max) as Hmax by (by vm_compute).
  assert (accepting 1 (crypto_world [4294967295; 7])) as Hacc
    by (apply Exists_cons_tl, Exists_cons_hd; by vm_compute).
  split; [exact Hmax|]. split; [exact Hacc|].
  destruct (getSecureRandomInt_range 1 (crypto_world [4294967295; 7]) Hmax)
    as (_ & Hrange & Hreturns & _).
  destruct (Hreturns Hacc) as (v & w' & Hrun).
  exists v, w'. split; [exact Hrun|].
  exact (proj2 (Hrange v w' Hrun) eq_refl).
Defined.

(** C5 as stated fails for [max = 2^32]: on the crypto path no prefix
    of any stream of words makes the call return. *)
Lemma getSecureRandomInt_range_counterexample :
  0 < 4294967296 /\
  ~ (exists ws v w',
       getSecureRandomInt 4294967296 (crypto_world ws) = Some (v, w')).
Proof.
  split; [done|]. intros (ws & v & w' & H).
  rewrite getSecureRandomInt_crypto in H by done.
  destruct (draw_until _ _ _) as [[v0 rest]|] eqn:E; [|done].
  apply draw_until_Some in E as (_ & x & _ & _ & Hx & _).
  change (bound 4294967296) with 0 in Hx.
  pose proof (to_uint32_range x). lia.
Qed.

(** C6, as the code has it. On the crypto path, for every [max > 0] the
    threshold is [floor((2^32 - 1) / max) * max], the largest multiple
    of [max] not exceeding [2^32 - 1]; it is [floor(2^32 / max) * max]
    unless [max] divides [2^32].  The drawn word is accepted, and the
    call returns the word modulo [max], exactly when it is strictly
    below the threshold; otherwise the call goes on with the next word. *)
Theorem bound_threshold max x ws w :
  0 < max -> crypto w = true -> words w = x :: ws ->
  bound max = (2 ^ 32 - 1) / max * max /\
  ((max | bound max) /\ bound max <= 2 ^ 32 - 1 /\
   forall m, (max | m) -> m <= 2 ^ 32 - 1 -> m <= bound max) /\
  (~ (max | 2 ^ 32) -> bound max = 2 ^ 32 / max * max) /\
  (to_uint32 x < bound max ->
     getSecureRandomInt max w
       = Some (to_uint32 x mod max, log_call max (set_words ws w))) /\
  (bound max <= to_uint32 x ->
     getSecureRandomInt max w = getSecureRandomInt max (set_words ws w)).
Proof.
  intros Hmax Hc Hws. split; [done|]. split; [|split; [|split]].
  - split; [apply bound_multiple|]. split; [by apply bound_le|].
    intros m [k ->] Hm. unfold bound.
    apply Z.mul_le_mono_nonneg_r; [lia|].
    apply Z.div_le_lower_bound; [done|]. rewrite uint32Max_eq. lia.
  - intros Hndiv. unfold bound. f_equal. rewrite uint32Max_eq.
    pose proof (Z.div_mod (2 ^ 32) max ltac:(lia)) as Hdm.
    pose proof (Z.mod_pos_bound (2 ^ 32) max Hmax) as Hr.
    assert (2 ^ 32 mod max <> 0) as Hr0.
    { intros H0. apply Hndiv. apply Z.mod_divide; [lia | done]. }
    symmetry. apply (Z.div_unique_pos _ _ _ (2 ^ 32 mod max - 1)); lia.
  - intros Hlt. rewrite getSecureRandomInt_crypto, Hws by done. simpl.
    destruct (Z.ltb_spec (to_uint32 x) (bound max)); [|lia].
    rewrite Z.rem_mod_nonneg; [done | apply to_uint32_range | done].
  - intros Hge. rewrite !getSecureRandomInt_crypto, Hws by done. simpl.
    by destruct (Z.ltb_spec (to_uint32 x) (bound max)); [lia|].
Qed.

Lemma bound_threshold_witness :
  0 < 26 /\ crypto (crypto_world [4294967295; 27]) = true /\
  words (crypto_world [4294967295; 27]) = [4294967295; 27] /\
  bound 26 = 4294967274 /\
  getSecureRandomInt 26 (crypto_world [4294967295; 27])
    = getSecureRandomInt 26 (crypto_world [27]).
Proof.
  assert (0 < 26) as Hmax by done.
  split; [exact Hmax|]. split; [reflexivity|]. split; [reflexivity|].
  destruct (bound_threshold 26 4294967295 [27] (crypto_world [4294967295; 27])
              Hmax eq_refl eq_refl) as (Hb & _ & _ & _ & Hrej).
  split; [exact Hb|]. apply Hrej. by vm_compute.
Defined.

(** C6 as stated fails for [max = 1]: the threshold is [2^32 - 1], not
    [floor(2^32 / 1) * 1 = 2^32], and the word [2^32 - 1], strictly
    below [2^32], is not accepted. *)
Lemma bound_threshold_counterexample :
  0 < 1 /\ bound 1 <> 2 ^ 32 / 1 * 1 /\
  4294967295 < 2 ^ 32 / 1 * 1 /\
  getSecureRandomInt 1 (crypto_world [4294967295]) = None.
Proof. repeat split; by vm_compute. Qed.

(** ** Draws, replay and the shuffle *)

Lemma sample_run :
  generatePassword 4 all_classes sample_world = Some (Return "a6^B", sample_end).
Proof. by vm_compute. Qed.

Lemma all_classes_valid : valid_request 4 all_classes.
Proof. split; by vm_compute. Qed.

(** C7. For a valid request of length [len] with [k] selected classes
    generatePassword calls getSecureRandomInt once per class ([k]
    calls, with the pool lengths), then once per remaining position
    ([len - k] calls, with the length of the combined pool), then once
    per shuffle step ([len - 1] calls, with [len], [len - 1], ..., [2]):
    [2 * len - 1] calls in all, and no other.  Every run that returns
    has made exactly these calls, in this order, and the run returns
    with them made once the sources have supplied [2 * len - 1]
    accepted values. *)
Theorem generatePassword_calls len o w :
  valid_request len o ->
  let picks := map str_length (build_pools o) in
  let fills :=
    replicate (Z.to_nat (len - selection_size o))
      (str_length (String.concat EmptyString (build_pools o))) in
  let shuffles := shuffle_bounds (Z.to_nat len - 1) in
  (Z.of_nat (length picks) = selection_size o /\
   Z.of_nat (length fills) = len - selection_size o /\
   Z.of_nat (length shuffles) = len - 1 /\
   Z.of_nat (length (picks ++ fills ++ shuffles)) = 2 * len - 1) /\
  (forall r w', generatePassword len o w = Some (r, w') ->
     calls w' = calls w ++ picks ++ fills ++ shuffles) /\
  ((2 * Z.to_nat len - 1 <= supply (Z.max len 91) w)%nat ->
   exists pw w',
     generatePassword len o w = Some (Return pw, w') /\
     calls w' = calls w ++ picks ++ fills ++ shuffles).
Proof.
  intros Hvalid picks fills shuffles.
  rewrite (generatePassword_compose _ _ Hvalid).
  pose proof (compose_logs len o Hvalid) as Hlogs.
  pose proof (expected_calls_length len o Hvalid) as Htotal.
  split; [|split].
  - destruct Hvalid as [Hsel%selection_size_pos Hlen].
    subst picks fills shuffles.
    rewrite length_map, length_replicate, shuffle_bounds_length, pools_length.
    repeat split; try lia. exact Htotal.
  - intros r w' Hrun. exact (Hlogs _ _ _ Hrun).
  - intros Hsupply.
    destruct (compose_runs len o (Z.max len 91) Hvalid) with (w := w) (k := 0%nat)
      as (r & w' & Hrun & _); [lia | lia | lia |].
    destruct (compose_covering len o Hvalid _ _ _ Hrun) as (pw & -> & _).
    exists pw, w'. split; [done|]. exact (Hlogs _ _ _ Hrun).
Qed.

Lemma generatePassword_calls_witness :
  valid_request 12 three_classes /\
  (2 * Z.to_nat 12 - 1 <=
     supply (Z.max 12 91) (crypto_world (map Z.of_nat (seq 40 23))))%nat /\
  exists pw w',
    generatePassword 12 three_classes (crypto_world (map Z.of_nat (seq 40 23)))
      = Some (Return pw, w') /\
    calls w' =
      calls (crypto_world (map Z.of_nat (seq 40 23))) ++
      [26; 26; 10] ++
      [62; 62; 62; 62; 62; 62; 62; 62; 62] ++
      [12; 11; 10; 9; 8; 7; 6; 5; 4; 3; 2].
Proof.
  assert (valid_request 12 three_classes) as Hvalid
    by (split; by vm_compute).
  assert (2 * Z.to_nat 12 - 1 <=
     supply (Z.max 12 91) (crypto_world (map Z.of_nat (seq 40 23))))%nat
    as Hsupply by (vm_compute; lia).
  split; [exact Hvalid|]. split; [exact Hsupply|].
  exact (proj2 (proj2 (generatePassword_calls 12 three_classes
                         (crypto_world (map Z.of_nat (seq 40 23))) Hvalid))
           Hsupply).
Defined.

(** C9. shuffleArray is the reference Fisher-Yates procedure: on every
    array and every world the two give the same result and leave the
    same world. *)
Theorem shuffleArray_fisher_yates {A} (a : array A) w :
  shuffleArray a w = fisher_yates a w.
Proof.
  unfold shuffleArray, fisher_yates. apply shuffle_from_reference.
  destruct a; simpl; lia.
Qed.

(** C10. The array that shuffleArray returns is a permutation of the
    array it was given, of the same length. *)
Theorem shuffleArray_permutes {A} (a : array A) w a' w' :
  shuffleArray a w = Some (a', w') -> a' ≡ₚ a /\ length a' = length a.
Proof.
  intros Hrun%shuffleArray_Permutation. split; [done|].
  by apply Permutation_length.
Qed.

Lemma shuffleArray_permutes_witness :
  shuffleArray [Some 10%nat; None; Some 30%nat; Some 10%nat]
    (crypto_world [5; 4294967295; 7; 2])
  = Some ([Some 30%nat; Some 10%nat; Some 10%nat; None],
          MkWorld true [] [] [4; 3; 2]) /\
  [Some 30%nat; Some 10%nat; Some 10%nat; None]
    ≡ₚ [Some 10%nat; None; Some 30%nat; Some 10%nat].
Proof.
  assert (shuffleArray [Some 10%nat; None; Some 30%nat; Some 10%nat]
            (crypto_world [5; 4294967295; 7; 2])
          = Some ([Some 30%nat; Some 10%nat; Some 10%nat; None],
                  MkWorld true [] [] [4; 3; 2])) as Hrun by (by vm_compute).
  split; [exact Hrun|].
  exact (proj1 (shuffleArray_permutes _ _ _ _ Hrun)).
Defined.

(** * Further properties of the code *)

(** ** The rejection sampler *)

Lemma filter_none {X} (P : X -> Prop) `{!forall x, Decision (P x)} (l : list X) :
  Forall (fun x => ~ P x) l -> filter P l = [].
Proof.
  induction 1 as [|x l Hx _ IH]; [done|]. by rewrite filter_cons_False.
Qed.

Lemma rem_block max q i :
  0 < max -> 0 <= q -> 0 <= i < max -> Z.rem (q * max + i) max = i.
Proof.
  intros Hmax Hq Hi. rewrite Z.rem_mod_nonneg by nia.
  symmetry. apply (Z.mod_unique _ _ q); lia.
Qed.

(** In a block of [max] consecutive words that starts at a multiple of
    [max], exactly one word gives [v]. *)
Lemma words_giving_block max v q :
  0 < max -> 0 <= v < max -> 0 <= q ->
  filter (fun x => Z.rem x max = v) (seqZ (q * max) max) = [q * max + v].
Proof.
  intros Hmax Hv Hq.
  assert (seqZ (q * max) max =
          seqZ (q * max) v ++ seqZ (q * max + v) 1 ++
          seqZ (q * max + v + 1) (max - v - 1)) as ->.
  { transitivity (seqZ (q * max) (v + (1 + (max - v - 1)))); [f_equal; lia|].
    by rewrite seqZ_app, seqZ_app by lia. }
  rewrite !filter_app.
  rewrite (filter_none _ (seqZ (q * max) v)).
  2:{ apply Forall_forall. intros x [Hlo Hhi]%elem_of_seqZ.
      replace x with (q * max + (x - q * max)) by lia.
      rewrite rem_block by lia. lia. }
  rewrite (filter_none _ (seqZ _ (max - v - 1))).
  2:{ apply Forall_forall. intros x [Hlo Hhi]%elem_of_seqZ.
      replace x with (q * max + (x - q * max)) by lia.
      rewrite rem_block by lia. lia. }
  change (seqZ (q * max + v) 1) with [q * max + v].
  rewrite filter_cons_True by (by apply rem_block). by rewrite app_nil_r.
Qed.

Lemma words_giving_blocks max v (n : nat) :
  0 < max -> 0 <= v < max ->
  length (filter (fun x => Z.rem x max = v) (seqZ 0 (Z.of_nat n * max))) = n.
Proof.
  intros Hmax Hv. induction n as [|n IH]; [done|].
  replace (Z.of_nat (S n) * max) with (Z.of_nat n * max + max) by lia.
  rewrite seqZ_app by nia. rewrite filter_app, length_app, IH, Z.add_0_l.
  rewrite words_giving_block by lia. simpl. lia.
Qed.

Lemma to_uint32_id x : 0 <= x < 2 ^ 32 -> to_uint32 x = x.
Proof. intros Hx. unfold to_uint32. by apply Z.mod_small. Qed.

Lemma words_giving_spec max v x :
  0 < max ->
  x ∈ words_giving max v <->
  0 <= x < 2 ^ 32 /\ draw_until max (bound max) [x] = Some (v, []).
Proof.
  intros Hmax. pose proof (bound_le max Hmax) as Hb. rewrite uint32Max_eq in Hb.
  unfold words_giving. rewrite list_elem_of_filter, elem_of_seqZ. simpl.
  split.
  - intros [Hv [Hlo Hhi]]. split; [lia|].
    rewrite to_uint32_id by lia.
    destruct (Z.ltb_spec x (bound max)); [by rewrite Hv | lia].
  - intros [Hx Hrun]. rewrite to_uint32_id in Hrun by done.
    destruct (Z.ltb_spec x (bound max)); [|done].
    injection Hrun as Hv. split; [done | lia].
Qed.

(** X1. Rejection sampling has no modulo bias: for a positive bound
    [max], the 32-bit words that make a call return [v] at once are the
    members of [words_giving max v], and every value [v] of [[0, max)]
    has the same number of them, [floor((2^32 - 1) / max)]. *)
Theorem words_giving_uniform max v :
  0 < max -> 0 <= v < max ->
  (forall x, x ∈ words_giving max v <->
     0 <= x < 2 ^ 32 /\ draw_until max (bound max) [x] = Some (v, [])) /\
  Z.of_nat (length (words_giving max v)) = uint32Max / max.
Proof.
  intros Hmax Hv. split; [intros x; by apply words_giving_spec|].
  unfold words_giving, bound.
  assert (0 <= uint32Max / max) as Hq by (apply Z.div_pos; [done | lia]).
  rewrite <-(Z2Nat.id (uint32Max / max)) at 1 by done.
  rewrite words_giving_blocks by done. lia.
Qed.

Lemma words_giving_uniform_witness :
  0 < 26 /\ 0 <= 7 < 26 /\
  Z.of_nat (length (words_giving 26 7)) = uint32Max / 26.
Proof.
  assert (0 < 26) as Hmax by done.
  assert (0 <= 7 < 26) as Hv by done.
  split; [exact Hmax|]. split; [exact Hv|].
  exact (proj2 (words_giving_uniform 26 7 Hmax Hv)).
Defined.

(** X2. For a bound [max] from 1 to [2^32 - 1] the loop accepts at
    least half of the 32-bit words and rejects at most [max] of them;
    the word [2^32 - 1] is among the rejected ones whatever [max] is. *)
Theorem bound_acceptance max :
  0 < max <= uint32Max ->
  2 ^ 31 <= bound max /\ 2 ^ 32 - bound max <= max /\
  bound max <= to_uint32 4294967295.
Proof.
  intros [Hpos Hle]. pose proof (bound_ge max Hpos) as Hge.
  pose proof (bound_le max Hpos) as Hub.
  split; [|split; [lia | exact Hub]].
  unfold bound in *.
  assert (1 <= uint32Max / max) by (apply Z.div_le_lower_bound; lia).
  pose proof (Z.mul_succ_div_gt uint32Max max Hpos) as Hgt.
  rewrite uint32Max_eq in *. nia.
Qed.

Lemma bound_acceptance_witness :
  0 < 91 <= uint32Max /\
  2 ^ 31 <= bound 91 /\ 2 ^ 32 - bound 91 <= 91 /\
  bound 91 <= to_uint32 4294967295.
Proof.
  assert (0 < 91 <= uint32Max) as Hmax by (by vm_compute).
  split; [exact Hmax|]. exact (bound_acceptance 91 Hmax).
Defined.

(** X3. On the crypto path a call with a positive bound returns exactly
    when the stream holds a word below the threshold; it then has
    skipped the words before the first such word, returns this word
    modulo [max] and leaves the words after it. *)
Theorem getSecureRandomInt_first_accepted max w v w' :
  0 < max -> crypto w = true ->
  getSecureRandomInt max w = Some (v, w') <->
  exists rejected x rest,
    words w = rejected ++ x :: rest /\
    Forall (fun y => bound max <= to_uint32 y) rejected /\
    to_uint32 x < bound max /\
    v = to_uint32 x mod max /\
    w' = log_call max (set_words rest w).
Proof.
  intros Hmax Hc. rewrite getSecureRandomInt_crypto by done. split.
  - destruct (draw_until _ _ _) as [[v0 rest]|] eqn:E; [|done].
    intros [= <- <-].
    apply draw_until_Some in E as (rej & x & Hws & Hrej & Hx & ->).
    exists rej, x, rest. repeat split; try done.
    apply Z.rem_mod_nonneg; [apply to_uint32_range | done].
  - intros (rej & x & rest & Hws & Hrej & Hx & -> & ->).
    assert (draw_until max (bound max) (words w)
            = Some (Z.rem (to_uint32 x) max, rest)) as ->.
    { apply draw_until_Some. exists rej, x. done. }
    rewrite Z.rem_mod_nonneg; [done | apply to_uint32_range | done].
Qed.

Lemma getSecureRandomInt_first_accepted_witness :
  0 < 3 /\ crypto (crypto_world [4294967295; 4294967295; 8; 1]) = true /\
  getSecureRandomInt 3 (crypto_world [4294967295; 4294967295; 8; 1])
    = Some (2, log_call 3 (crypto_world [1])).
Proof.
  assert (0 < 3) as Hmax by done.
  split; [exact Hmax|]. split; [reflexivity|].
  apply (proj2 (getSecureRandomInt_first_accepted 3
                  (crypto_world [4294967295; 4294967295; 8; 1]) _ _
                  Hmax eq_refl)).
  exists [4294967295; 4294967295], 8, [1].
  split; [reflexivity|].
  split; [repeat constructor; by vm_compute|].
  split; [by vm_compute|]. split; [by vm_compute | reflexivity].
Defined.

(** X4. On the fallback path a call with a positive bound, of whatever
    size, takes exactly one Math.random value [u] and returns the
    integer part of the double product [u * max], an integer of
    [[0, max)]; it waits only when no value is left. *)
Theorem getSecureRandomInt_fallback_total max w :
  0 < max -> crypto w = false ->
  match randoms w with
  | [] => getSecureRandomInt max w = None
  | u :: us =>
      getSecureRandomInt max w
        = Some (scale u max, log_call max (set_randoms us w)) /\
      0 <= scale u max < max
  end.
Proof.
  intros Hmax Hc. rewrite getSecureRandomInt_fallback by done.
  destruct (randoms w) as [|u us]; [done|].
  split; [done | by apply scale_range].
Qed.

Lemma getSecureRandomInt_fallback_total_witness :
  0 < 3 /\
  crypto (fallback_world [Unit01 6004799503160661 3002399751580331]) = false /\
  getSecureRandomInt 3 (fallback_world [Unit01 6004799503160661 3002399751580331])
    = Some (2, log_call 3 (fallback_world [])) /\
  0 <= 2 < 3.
Proof.
  assert (0 < 3) as Hmax by done.
  split; [exact Hmax|]. split; [reflexivity|].
  exact (getSecureRandomInt_fallback_total 3
           (fallback_world [Unit01 6004799503160661 3002399751580331])
           Hmax eq_refl).
Defined.

(** ** What a run takes from the sources *)

Lemma respects_ret R `{!Reflexive R} {A} (a : A) : respects R (ret a).
Proof. intros w a' w' [= _ <-]. reflexivity. Qed.

Lemma respects_bind R `{!Transitive R} {A B} (m : M A) (k : A -> M B) :
  respects R m -> (forall a, respects R (k a)) -> respects R (bind m k).
Proof.
  intros Hm Hk w b w'' (a & w' & Ha & Hb)%bind_Some.
  transitivity w'; [exact (Hm _ _ _ Ha) | exact (Hk _ _ _ _ Hb)].
Qed.

Section Respects.
Context (R : World -> World -> Prop) `{!Reflexive R, !Transitive R}.
Hypothesis draw_respects : forall max, respects R (getSecureRandomInt max).

Lemma pickRandomChar_respects str : respects R (pickRandomChar str).
Proof.
  apply respects_bind; [done | apply draw_respects|].
  intros i. by apply respects_ret.
Qed.

Lemma guaranteed_respects pools result : respects R (guaranteed pools result).
Proof.
  revert result. induction pools as [|pool pools IH]; intros result.
  - by apply respects_ret.
  - cbn [guaranteed].
    apply respects_bind; [done | apply pickRandomChar_respects | auto].
Qed.

Lemma fill_respects n combined result : respects R (fill n combined result).
Proof.
  revert result. induction n as [|n IH]; intros result.
  - by apply respects_ret.
  - cbn [fill].
    apply respects_bind; [done | apply pickRandomChar_respects | auto].
Qed.

Lemma shuffle_from_respects {A} i (a : array A) : respects R (shuffle_from i a).
Proof.
  revert a. induction i as [|i IH]; intros a.
  - by apply respects_ret.
  - cbn [shuffle_from]. apply respects_bind; [done | apply draw_respects | auto].
Qed.

Lemma generatePassword_respects len o : respects R (generatePassword len o).
Proof.
  unfold generatePassword. repeat case_match; try by apply respects_ret.
  apply respects_bind; [done | apply guaranteed_respects|]. intros r1.
  apply respects_bind; [done | apply fill_respects|]. intros r2.
  apply respects_bind; [done | apply shuffle_from_respects|]. intros r3.
  by apply respects_ret.
Qed.
End Respects.

Lemma drawing_calls_app cs1 cs2 :
  drawing_calls (cs1 ++ cs2) = (drawing_calls cs1 + drawing_calls cs2)%nat.
Proof. unfold drawing_calls. by rewrite filter_app, length_app. Qed.

Lemma drawing_calls_all cs :
  Forall (fun max => 0 < max) cs -> drawing_calls cs = length cs.
Proof.
  unfold drawing_calls. induction 1 as [|c cs Hc _ IH]; [done|].
  rewrite filter_cons_True by done. simpl. by rewrite IH.
Qed.

Lemma accounted_refl : Reflexive accounted.
Proof. intros w. unfold accounted. repeat split; lia. Qed.

Lemma accounted_trans : Transitive accounted.
Proof.
  intros w1 w2 w3 (Hc1 & Hf1 & Ht1) (Hc2 & Hf2 & Ht2).
  split; [congruence|]. split.
  - intros Hc. destruct (Hf1 Hc) as [Hw1 Hn1].
    destruct Hf2 as [Hw2 Hn2]; [congruence|]. split; [congruence | lia].
  - intros Hc. destruct (Ht1 Hc) as [Hr1 Hn1].
    destruct Ht2 as [Hr2 Hn2]; [congruence|]. split; [congruence | lia].
Qed.

Lemma drawing_calls_snoc cs max :
  drawing_calls (cs ++ [max]) =
  (drawing_calls cs + if decide (0 < max)%Z then 1 else 0)%nat.
Proof.
  rewrite drawing_calls_app. f_equal. unfold drawing_calls.
  rewrite filter_cons, filter_nil. by case_decide.
Qed.

Lemma getSecureRandomInt_accounted max : respects accounted (getSecureRandomInt max).
Proof.
  intros w v w'. destruct (Z.le_gt_cases max 0) as [Hmax|Hmax].
  { rewrite getSecureRandomInt_nonpos by done. intros [= _ <-].
    unfold accounted. simpl. rewrite drawing_calls_snoc.
    case_decide; [lia|]. repeat split; lia. }
  destruct (crypto w) eqn:Hc.
  - rewrite getSecureRandomInt_crypto by done.
    destruct (draw_until _ _ _) as [[v0 rest]|] eqn:E; [|done].
    intros [= _ <-].
    apply draw_until_Some in E as (rej & x & Hws & _).
    unfold accounted. simpl. rewrite Hc, Hws, drawing_calls_snoc, length_app.
    case_decide; [|lia]. simpl. repeat split; try done. lia.
  - rewrite getSecureRandomInt_fallback by done.
    destruct (randoms w) as [|u us] eqn:Hus; [done|].
    intros [= _ <-].
    unfold accounted. simpl. rewrite Hc, Hus, drawing_calls_snoc.
    case_decide; [|lia]. simpl. repeat split; try done. lia.
Qed.

Lemma shuffle_bounds_positive i : Forall (fun max => 0 < max) (shuffle_bounds i).
Proof.
  induction i as [|i IH]; [constructor|].
  cbn [shuffle_bounds]. constructor; [lia | done].
Qed.

Lemma expected_calls_positive len o :
  selection o <> [] -> Forall (fun max => 0 < max) (expected_calls len o).
Proof.
  intros Hsel. unfold expected_calls.
  pose proof (combined_bounded o Hsel) as [Hcomb _].
  repeat (apply Forall_app; split).
  - apply Forall_fmap. apply pools_positive.
  - by apply Forall_replicate.
  - apply shuffle_bounds_positive.
Qed.

(** X5. What a password costs. A run of generatePassword for a valid
    request of length [len] leaves the capability as it is; on the
    fallback path it takes no word and exactly [2 * len - 1] Math.random
    values; on the crypto path it takes no Math.random value and at
    least [2 * len - 1] words. *)
Theorem generatePassword_entropy len o w r w' :
  valid_request len o ->
  generatePassword len o w = Some (r, w') ->
  crypto w' = crypto w /\
  (crypto w = false ->
     words w' = words w /\
     Z.of_nat (length (randoms w)) =
       Z.of_nat (length (randoms w')) + (2 * len - 1)) /\
  (crypto w = true ->
     randoms w' = randoms w /\
     Z.of_nat (length (words w')) + (2 * len - 1) <=
       Z.of_nat (length (words w))).
Proof.
  intros Hvalid Hrun.
  pose proof (@generatePassword_respects accounted accounted_refl
                accounted_trans getSecureRandomInt_accounted
                len o _ _ _ Hrun) as (Hc & Hf & Ht).
  rewrite (generatePassword_compose _ _ Hvalid) in Hrun.
  pose proof (compose_logs len o Hvalid _ _ _ Hrun) as Hlog.
  pose proof (expected_calls_length len o Hvalid) as Hlen.
  assert (drawing_calls (calls w') =
          (drawing_calls (calls w) + length (expected_calls len o))%nat) as Hd.
  { rewrite Hlog, drawing_calls_app. f_equal.
    apply drawing_calls_all, expected_calls_positive. apply Hvalid. }
  split; [done|]. split.
  - intros Hfb. destruct (Hf Hfb) as [Hw Hn]. split; [done | lia].
  - intros Hcr. destruct (Ht Hcr) as [Hr Hn]. split; [done | lia].
Qed.

Lemma generatePassword_entropy_witness :
  valid_request 4 all_classes /\
  generatePassword 4 all_classes sample_world = Some (Return "a6^B", sample_end) /\
  Z.of_nat (length (words sample_end)) + (2 * 4 - 1)
    <= Z.of_nat (length (words sample_world)).
Proof.
  split; [exact all_classes_valid|]. split; [exact sample_run|].
  exact (proj2 (proj2 (proj2 (generatePassword_entropy 4 all_classes
           sample_world _ _ all_classes_valid sample_run)) eq_refl)).
Defined.

(** ** pickRandomChar *)



(** ** shuffleArray *)

(** An array with at most one cell comes back as it is, without a call
    of getSecureRandomInt. *)
Lemma shuffleArray_short {A} (a : array A) w :
  (length a <= 1)%nat -> shuffleArray a w = Some (a, w).
Proof.
  intros Hlen. unfold shuffleArray.
  by replace (length a - 1)%nat with 0%nat by lia.
Qed.

(** X7. shuffleArray on an array of [n] cells calls getSecureRandomInt
    [n - 1] times, with the bounds [n], [n - 1], ..., [2] in this
    order (not at all when [n] is 0 or 1), and it returns once the
    sources have supplied [n - 1] accepted values. *)
Theorem shuffleArray_draws {A} (a : array A) w :
  (forall a' w', shuffleArray a w = Some (a', w') ->
     calls w' = calls w ++ shuffle_bounds (length a - 1) /\
     length (shuffle_bounds (length a - 1)) = (length a - 1)%nat) /\
  ((length a - 1 <= supply (Z.of_nat (length a)) w)%nat ->
     exists a' w', shuffleArray a w = Some (a', w')).
Proof.
  split.
  - intros a' w' Hrun. split; [|apply shuffle_bounds_length].
    exact (shuffle_from_logs _ _ _ _ _ Hrun).
  - intros Hsupply. destruct (decide (length a <= 1)%nat) as [Hshort|Hlong].
    + exists a, w. by apply shuffleArray_short.
    + destruct (shuffle_from_runs (length a - 1) a (Z.of_nat (length a)))
        with (w := w) (k := 0%nat) as (a' & w' & Hrun & _); [lia | lia |].
      by exists a', w'.
Qed.

Lemma shuffleArray_draws_witness :
  (length [Some 1; Some 2; Some 3] - 1
     <= supply 3%Z (crypto_world [4294967295; 7; 9]%Z))%nat /\
  exists a' w',
    shuffleArray [Some 1%nat; Some 2%nat; Some 3%nat]
      (crypto_world [4294967295; 7; 9]) = Some (a', w').
Proof.
  assert (length [Some 1; Some 2; Some 3] - 1
            <= supply 3%Z (crypto_world [4294967295; 7; 9]%Z))%nat as Hsupply
    by (vm_compute; lia).
  split; [exact Hsupply|].
  exact (proj2 (shuffleArray_draws [Some 1%nat; Some 2%nat; Some 3%nat]
                  (crypto_world [4294967295; 7; 9])) Hsupply).
Defined.

Lemma bound_covers max : 0 < max <= uint32Max -> max <= bound max.
Proof.
  intros [Hpos Hle]. unfold bound.
  assert (1 <= uint32Max / max) by (apply Z.div_le_lower_bound; lia). nia.
Qed.

(** A word below the bound is accepted and returned as it is. *)
Lemma getSecureRandomInt_word max j ws us cs :
  0 < max <= uint32Max -> 0 <= j < max ->
  getSecureRandomInt max (MkWorld true (j :: ws) us cs)
  = Some (j, MkWorld true ws us (cs ++ [max])).
Proof.
  intros Hmax Hj. pose proof (bound_covers max Hmax) as Hb.
  rewrite getSecureRandomInt_crypto by (done || lia). simpl.
  rewrite to_uint32_id by (rewrite uint32Max_eq in Hmax; lia).
  destruct (Z.ltb_spec j (bound max)); [|lia].
  by rewrite Z.rem_small by lia.
Qed.

Lemma shuffle_from_reaches {A} (i : nat) (pre pre' tail : array A) :
  length pre = S i -> pre' ≡ₚ pre -> Z.of_nat (S i) <= uint32Max ->
  exists js,
    length js = i /\
    forall rest us cs, exists cs',
      shuffle_from i (pre ++ tail) (MkWorld true (js ++ rest) us cs)
      = Some (pre' ++ tail, MkWorld true rest us cs').
Proof.
  revert pre pre' tail. induction i as [|i IH]; intros pre pre' tail Hlen Hperm Hmax.
  - destruct pre as [|x [|? ?]]; try done.
    apply Permutation_singleton_r in Hperm as ->.
    exists []. split; [done|]. intros rest us cs. by exists cs.
  - assert (length pre' = S (S i)) as Hlen' by (by rewrite Hperm).
    destruct pre' as [|y pre'0 _] using rev_ind; [done|].
    assert (y ∈ pre) as Hy
      by (rewrite <-Hperm; apply elem_of_app; right; by left).
    apply list_elem_of_lookup_1 in Hy as [j Hj].
    pose proof (lookup_lt_Some _ _ _ Hj) as Hjlt.
    destruct (lookup_lt_is_Some_2 pre (S i)) as [z Hz]; [lia|].
    set (new_pre := <[j := z]> (<[S i := y]> pre)).
    assert (new_pre ≡ₚ pre) as Hnew by (by apply Permutation_insert_swap).
    assert (length new_pre = S (S i)) as Hnewlen by (by rewrite Hnew).
    assert (new_pre !! S i = Some y) as Hlast.
    { unfold new_pre. destruct (decide (j = S i)) as [->|Hne].
      - rewrite list_lookup_insert_eq by (rewrite length_insert; lia). congruence.
      - rewrite list_lookup_insert_ne by done.
        apply list_lookup_insert_eq. lia. }
    assert (new_pre = take (S i) new_pre ++ [y]) as Hsplit.
    { rewrite <-(take_drop (S i) new_pre) at 1. f_equal.
      rewrite (drop_S _ y) by done. by rewrite drop_ge by lia. }
    assert (pre'0 ≡ₚ take (S i) new_pre) as Hfront.
    { apply (Permutation_app_inv_r [y]). by rewrite <-Hsplit, Hnew. }
    destruct (IH (take (S i) new_pre) pre'0 (y :: tail)) as (js & Hjs & Hrun).
    { rewrite length_take_le; lia. }
    { done. }
    { lia. }
    exists (Z.of_nat j :: js). split; [simpl; by rewrite Hjs|].
    intros rest us cs. destruct (Hrun rest us (cs ++ [Z.of_nat (S i) + 1])) as [cs' E].
    exists cs'. cbn [shuffle_from]. unfold bind. simpl app.
    rewrite getSecureRandomInt_word by lia.
    assert (swap (pre ++ tail) (Z.of_nat (S i)) (Z.of_nat j) = new_pre ++ tail)
      as ->.
    { rewrite (swap_inside _ _ _ z y) by (rewrite lookup_app_l; [done | lia]).
      unfold new_pre. rewrite (insert_app_l pre) by lia.
      rewrite insert_app_l; [done|]. rewrite length_insert. lia. }
    rewrite Hsplit, <-!app_assoc. simpl. exact E.
Qed.

(** X8. Every permutation of the array is an outcome of shuffleArray:
    for an array of [n] cells ([n] below [2^32]) and every rearrangement
    of it there are [n - 1] words on which shuffleArray returns exactly
    this rearrangement. *)
Theorem shuffleArray_reaches {A} (a a' : array A) :
  a' ≡ₚ a -> Z.of_nat (length a) <= uint32Max ->
  exists js,
    length js = (length a - 1)%nat /\
    forall rest us cs, exists cs',
      shuffleArray a (MkWorld true (js ++ rest) us cs)
      = Some (a', MkWorld true rest us cs').
Proof.
  intros Hperm Hlen. destruct (decide (length a = 0%nat)) as [Hnil|Hne].
  - destruct a; [|done]. apply Permutation_nil_r in Hperm as ->.
    exists []. split; [done|]. intros rest us cs. by exists cs.
  - destruct (shuffle_from_reaches (length a - 1) a a' []) as (js & Hjs & Hrun);
      [lia | done | lia |].
    exists js. split; [done|]. intros rest us cs.
    destruct (Hrun rest us cs) as [cs' E]. exists cs'.
    unfold shuffleArray. by rewrite !app_nil_r in E.
Qed.

Lemma shuffleArray_reaches_witness :
  [Some "c"; Some "a"; Some "b"] ≡ₚ [Some "a"; Some "b"; Some "c"] /\
  Z.of_nat (length [Some "a"; Some "b"; Some "c"]) <= uint32Max /\
  exists js,
    length js = 2%nat /\
    forall rest us cs, exists cs',
      shuffleArray [Some "a"; Some "b"; Some "c"] (MkWorld true (js ++ rest) us cs)
      = Some ([Some "c"; Some "a"; Some "b"], MkWorld true rest us cs').
Proof.
  assert ([Some "c"; Some "a"; Some "b"] ≡ₚ [Some "a"; Some "b"; Some "c"])
    as Hperm.
  { etrans; [apply perm_swap|]. apply perm_skip, perm_swap. }
  assert (Z.of_nat (length [Some "a"; Some "b"; Some "c"]) <= uint32Max)
    as Hlen by (by vm_compute).
  split; [exact Hperm|]. split; [exact Hlen|].
  exact (shuffleArray_reaches _ _ Hperm Hlen).
Defined.

(** ** The characters of a password *)

Lemma join_cons (cell : option string) (a : array string) :
  chars (join (cell :: a)) = chars (default EmptyString cell) ++ chars (join a).
Proof. unfold join. by rewrite !chars_concat. Qed.

Lemma join_Permutation (a b : array string) :
  a ≡ₚ b -> chars (join a) ≡ₚ chars (join b).
Proof.
  induction 1 as [|x a b _ IH|x y a|a b c _ IH1 _ IH2].
  - done.
  - rewrite !join_cons. by rewrite IH.
  - rewrite !join_cons, !app_assoc. f_equiv. apply Permutation_app_comm.
  - by rewrite IH1.
Qed.

(** The characters of the guaranteed cells: one per selected class, in
    the order of the classes. *)
Lemma guaranteed_cells_count (sel : list CharacterClass) cells c :
  Forall2 cell_in (map class_chars sel) cells ->
  length (filter (fun ch => ch ∈ chars (class_chars c)) (chars (join cells)))
  = length (filter (fun d => d = c) sel).
Proof.
  revert cells. induction sel as [|d sel IH]; intros cells Hcells.
  - by apply Forall2_nil_inv_l in Hcells as ->.
  - apply Forall2_cons_inv_l in Hcells as (cell & cells' & (ch & -> & Hch) & Hrest & ->).
    rewrite join_cons. simpl. specialize (IH cells' Hrest).
    destruct (decide (d = c)) as [->|Hne].
    + rewrite !filter_cons_True by done. simpl. by rewrite IH.
    + rewrite !filter_cons_False; [done | done |].
      intros Hin. apply Hne. by apply (class_chars_disjoint _ _ ch).
Qed.

Lemma selection_count o c :
  length (filter (fun d => d = c) (selection o))
  = if selected o c then 1%nat else 0%nat.
Proof. by destruct o as [[] [] [] []], c. Qed.

(** X9. A request whose length is the number of selected classes gets
    a password with exactly one character of each selected class. *)
Theorem generatePassword_one_of_each len o w r w' :
  selection o <> [] -> len = selection_size o ->
  generatePassword len o w = Some (r, w') ->
  exists pw,
    r = Return pw /\
    forall c, selected o c = true ->
      length (filter (fun ch => ch ∈ chars (class_chars c)) (chars pw)) = 1%nat.
Proof.
  intros Hsel -> Hrun.
  assert (valid_request (selection_size o) o) as Hvalid by (split; [done | lia]).
  rewrite (generatePassword_compose _ _ Hvalid) in Hrun. unfold compose in Hrun.
  apply bind_Some in Hrun as (r1 & w1 & H1 & Hrun).
  apply bind_Some in Hrun as (r2 & w2 & H2 & Hrun).
  apply bind_Some in Hrun as (r3 & w3 & H3 & [= <- _]).
  exists (join r3). split; [done|]. intros c Hc.
  apply guaranteed_cells in H1 as (cells & -> & Hcells); [|apply pools_positive].
  pose proof (Forall2_length _ _ _ Hcells) as Hlen.
  simpl in H2.
  replace (Z.to_nat (selection_size o - Z.of_nat (length cells))) with 0%nat in H2
    by (unfold selection_size; rewrite build_pools_selection, length_map in Hlen; lia).
  injection H2 as <- _.
  apply shuffleArray_Permutation in H3.
  rewrite (join_Permutation _ _ H3).
  rewrite build_pools_selection in Hcells.
  rewrite (guaranteed_cells_count _ _ c Hcells), selection_count. by rewrite Hc.
Qed.

Lemma generatePassword_one_of_each_witness :
  selection all_classes <> [] /\ 4 = selection_size all_classes /\
  generatePassword 4 all_classes sample_world = Some (Return "a6^B", sample_end) /\
  exists pw,
    Return "a6^B" = Return pw /\
    forall c, selected all_classes c = true ->
      length (filter (fun ch => ch ∈ chars (class_chars c)) (chars pw)) = 1%nat.
Proof.
  assert (selection all_classes <> []) as Hsel by (by vm_compute).
  assert (4 = selection_size all_classes) as Hlen by reflexivity.
  split; [exact Hsel|]. split; [exact Hlen|]. split; [exact sample_run|].
  exact (generatePassword_one_of_each 4 all_classes sample_world _ _
           Hsel Hlen sample_run).
Defined.

(** X10. Whatever the selection, no character occurs twice in the
    combined pool of the fill phase: two indices that pick the same
    character are the same index, so no character of the union has more
    indices than another. *)
Theorem combined_pool_no_repeat o i j :
  0 <= i < str_length (String.concat EmptyString (build_pools o)) ->
  0 <= j < str_length (String.concat EmptyString (build_pools o)) ->
  charAt (String.concat EmptyString (build_pools o)) i
    = charAt (String.concat EmptyString (build_pools o)) j ->
  i = j.
Proof.
  set (combined := String.concat EmptyString (build_pools o)).
  assert (NoDup (chars combined)) as Hnodup.
  { subst combined. destruct o as [[] [] [] []];
      apply (bool_decide_unpack _); by vm_compute. }
  unfold charAt, str_length. rewrite <-chars_length. intros Hi Hj.
  destruct (Z.ltb_spec i 0); [lia|]. destruct (Z.ltb_spec j 0); [lia|].
  rewrite !chars_get.
  destruct (lookup_lt_is_Some_2 (chars combined) (Z.to_nat i)) as [x Hx]; [lia|].
  destruct (lookup_lt_is_Some_2 (chars combined) (Z.to_nat j)) as [y Hy]; [lia|].
  rewrite Hx, Hy. intros [= ->].
  pose proof (NoDup_lookup _ _ _ _ Hnodup Hx Hy). lia.
Qed.

Lemma combined_pool_no_repeat_witness :
  0 <= 30 < str_length (String.concat EmptyString (build_pools three_classes)) /\
  0 <= 26 + 4 < str_length (String.concat EmptyString (build_pools three_classes)) /\
  charAt (String.concat EmptyString (build_pools three_classes)) 30
    = charAt (String.concat EmptyString (build_pools three_classes)) (26 + 4) /\
  30 = 26 + 4.
Proof.
  assert (0 <= 30 < str_length (String.concat EmptyString (build_pools three_classes)))
    as Hi by (by vm_compute).
  assert (0 <= 26 + 4 < str_length (String.concat EmptyString (build_pools three_classes)))
    as Hj by (by vm_compute).
  assert (charAt (String.concat EmptyString (build_pools three_classes)) 30
          = charAt (String.concat EmptyString (build_pools three_classes))
              (26 + 4)) as Heq by reflexivity.
  split; [exact Hi|]. split; [exact Hj|]. split; [exact Heq|].
  exact (combined_pool_no_repeat three_classes 30 (26 + 4) Hi Hj Heq).
Defined.

(** ** The generate button *)

Lemma no_box_checked o :
  negb (upper o) && negb (lower o) && negb (numbers o) && negb (symbols o) = true
  <-> selection o = [].
Proof. destruct o as [[] [] [] []]; by split. Qed.

Lemma selection_size_le_four o : selection_size o <= 4.
Proof. by destruct o as [[] [] [] []]. Qed.

Lemma generatePassword_Return len o w pw w' :
  selection o <> [] ->
  generatePassword len o w = Some (Return pw, w') ->
  valid_request len o /\ covering len o pw.
Proof.
  intros Hsel Hrun.
  destruct (Z.lt_ge_cases len (selection_size o)) as [Hshort|Hlen].
  - by rewrite generatePassword_short in Hrun by done.
  - assert (valid_request len o) as Hvalid by done. split; [done|].
    rewrite (generatePassword_compose _ _ Hvalid) in Hrun.
    by destruct (compose_covering len o Hvalid _ _ _ Hrun) as (pw' & [= <-] & Hpw).
Qed.

Lemma generatePassword_Throw len o w msg w' :
  selection o <> [] ->
  generatePassword len o w = Some (Throw msg, w') ->
  len < selection_size o /\ w' = w /\
  msg = "Length too short for selected character types".
Proof.
  intros Hsel Hrun.
  destruct (Z.lt_ge_cases len (selection_size o)) as [Hshort|Hlen].
  - rewrite generatePassword_short in Hrun by done.
    by injection Hrun as <- <-.
  - assert (valid_request len o) as Hvalid by done.
    rewrite (generatePassword_compose _ _ Hvalid) in Hrun.
    by destruct (compose_covering len o Hvalid _ _ _ Hrun) as (pw' & ? & _).
Qed.

Section ClickHandler.
Variable parseInt : string -> option Z.

Lemma on_generate_click_cases pg w pg' w' :
  on_generate_click parseInt pg w = Some (pg', w') ->
  (exists msg, pg' = alert msg pg /\ w' = w) \/
  (exists pw,
     pg' = showTemporaryMessage GenerateBtn "Generated!" 1400
             (show_password pw pg) /\
     covering (page_length parseInt pg) (page_options pg) pw /\
     0 < page_length parseInt pg).
Proof.
  unfold on_generate_click.
  destruct (less_than _ _ || greater_than _ _).
  { intros [= <- <-]. left. eauto. }
  destruct (negb _ && negb _ && negb _ && negb _) eqn:Hboxes.
  { intros [= <- <-]. left. eauto. }
  assert (selection (page_options pg) <> []) as Hsel.
  { intros Hnone%no_box_checked. congruence. }
  destruct (generatePassword _ _ w) as [[[pw|msg] w1]|] eqn:Hrun; [| |done].
  - intros [= <- <-]. right. exists pw.
    destruct (generatePassword_Return _ _ _ _ _ Hsel Hrun) as [[_ Hlen] Hpw].
    pose proof (selection_size_pos _ Hsel).
    split; [done|]. split; [exact Hpw | lia].
  - intros [= <- <-]. left.
    destruct (generatePassword_Throw _ _ _ _ _ Hsel Hrun) as (_ & -> & _). eauto.
Qed.

(** X11. A click on the generate button that comes back does one of two
    things. Either it shows one alert and changes nothing else on the
    page and takes nothing from the sources; or it shows no alert and
    puts into the password field a password of the requested length,
    which is at least 1, made of the checked classes with at least one
    character of each, and shows the temporary label on the button. *)
Theorem on_generate_click_outcome pg w pg' w' :
  on_generate_click parseInt pg w = Some (pg', w') ->
  (exists msg, pg' = alert msg pg /\ w' = w /\ alerts pg' = alerts pg ++ [msg]) \/
  (exists pw,
     pg' = showTemporaryMessage GenerateBtn "Generated!" 1400
             (show_password pw pg) /\
     alerts pg' = alerts pg /\
     covering (page_length parseInt pg) (page_options pg) pw /\
     0 < page_length parseInt pg).
Proof.
  intros [(msg & -> & ->)|(pw & -> & Hpw & Hlen)]%on_generate_click_cases.
  - left. by exists msg.
  - right. by exists pw.
Qed.

(** X12. When the minimum of the length input is a number that is at
    least 4, the error of generatePassword is never shown: a click that
    comes back shows the range alert, or the selection alert, or a
    password. *)
Theorem on_generate_click_min_four pg w pg' w' lo :
  parseInt (string_or (length_min pg) "4") = Some lo -> 4 <= lo ->
  on_generate_click parseInt pg w = Some (pg', w') ->
  pg' = alert (range_message pg) pg \/
  pg' = alert "Please select at least one character type." pg \/
  exists pw,
    pg' = showTemporaryMessage GenerateBtn "Generated!" 1400
            (show_password pw pg) /\
    Z.of_nat (String.length pw) = page_length parseInt pg.
Proof.
  intros Hlo Hfour. unfold on_generate_click. rewrite Hlo.
  destruct (less_than _ _) eqn:Hlt; [intros [= <- <-]; by left|].
  destruct (greater_than _ _); [intros [= <- <-]; by left|]. cbn [orb].
  destruct (negb _ && negb _ && negb _ && negb _) eqn:Hboxes.
  { intros [= <- <-]. right. by left. }
  assert (selection (page_options pg) <> []) as Hsel.
  { intros Hnone%no_box_checked. congruence. }
  simpl in Hlt. apply Z.ltb_ge in Hlt.
  pose proof (selection_size_le_four (page_options pg)) as Hk.
  destruct (generatePassword _ _ w) as [[[pw|msg] w1]|] eqn:Hrun; [| |done].
  - intros [= <- <-]. right. right. exists pw. split; [done|].
    destruct (generatePassword_Return _ _ _ _ _ Hsel Hrun) as [_ Hpw].
    apply Hpw.
  - destruct (generatePassword_Throw _ _ _ _ _ Hsel Hrun) as (Hshort & _). lia.
Qed.

(** X13. When the length passes the range check, a box is checked and
    the length is below the number of checked boxes, the click shows
    the message of the error that generatePassword throws, and changes
    nothing else. *)
Theorem on_generate_click_too_short pg w :
  less_than (page_length parseInt pg)
    (parseInt (string_or (length_min pg) "4")) = false ->
  greater_than (page_length parseInt pg)
    (parseInt (string_or (length_max pg) "128")) = false ->
  selection (page_options pg) <> [] ->
  page_length parseInt pg < selection_size (page_options pg) ->
  on_generate_click parseInt pg w
  = Some (alert "Length too short for selected character types" pg, w).
Proof.
  intros Hlt Hgt Hsel Hshort. unfold on_generate_click.
  rewrite Hlt, Hgt. cbn [orb].
  destruct (negb _ && negb _ && negb _ && negb _) eqn:Hboxes.
  { by apply no_box_checked in Hboxes. }
  by rewrite generatePassword_short by done.
Qed.

(** X14. After a click that shows no alert the button is disabled and
    shows the temporary label, and one timer of 1400 ms is pending; when
    its callback runs the button is enabled and shows its former label,
    and the password is still in the field. *)
Theorem on_generate_click_label pg w pg' w' :
  on_generate_click parseInt pg w = Some (pg', w') ->
  alerts pg' = alerts pg ->
  exists t,
    timers pg' = timers pg ++ [t] /\ timer_ms t = 1400 /\
    generate_button pg' = MkButton "Generated!" true /\
    generate_button (timeout_callback t pg')
      = MkButton (textContent (generate_button pg)) false /\
    password_value (timeout_callback t pg') = password_value pg' /\
    copy_button (timeout_callback t pg') = copy_button pg.
Proof.
  intros [(msg & -> & _)|(pw & -> & _)]%on_generate_click_cases.
  - simpl. intros Heq. apply (f_equal length) in Heq.
    rewrite length_app in Heq. simpl in Heq. lia.
  - intros _. by eexists.
Qed.
End ClickHandler.

Lemma sample_click :
  on_generate_click sample_parseInt sample_page sample_world
  = Some (showTemporaryMessage GenerateBtn "Generated!" 1400
            (show_password "a6^B" sample_page), sample_end).
Proof. by vm_compute. Qed.

Lemma on_generate_click_outcome_witness :
  on_generate_click sample_parseInt sample_page sample_world
  = Some (showTemporaryMessage GenerateBtn "Generated!" 1400
            (show_password "a6^B" sample_page), sample_end) /\
  ((exists msg,
      showTemporaryMessage GenerateBtn "Generated!" 1400
        (show_password "a6^B" sample_page) = alert msg sample_page /\
      sample_end = sample_world /\
      alerts (showTemporaryMessage GenerateBtn "Generated!" 1400
                (show_password "a6^B" sample_page))
        = alerts sample_page ++ [msg]) \/
   (exists pw,
      showTemporaryMessage GenerateBtn "Generated!" 1400
        (show_password "a6^B" sample_page)
      = showTemporaryMessage GenerateBtn "Generated!" 1400
          (show_password pw sample_page) /\
      alerts (showTemporaryMessage GenerateBtn "Generated!" 1400
                (show_password "a6^B" sample_page))
        = alerts sample_page /\
      covering (page_length sample_parseInt sample_page)
        (page_options sample_page) pw /\
      0 < page_length sample_parseInt sample_page)).
Proof.
  split; [exact sample_click|].
  exact (on_generate_click_outcome sample_parseInt sample_page sample_world
           _ _ sample_click).
Defined.

Lemma on_generate_click_min_four_witness :
  sample_parseInt (string_or (length_min sample_page) "4") = Some 4 /\
  4 <= 4 /\
  on_generate_click sample_parseInt sample_page sample_world
  = Some (showTemporaryMessage GenerateBtn "Generated!" 1400
            (show_password "a6^B" sample_page), sample_end) /\
  (showTemporaryMessage GenerateBtn "Generated!" 1400
     (show_password "a6^B" sample_page)
   = alert (range_message sample_page) sample_page \/
   showTemporaryMessage GenerateBtn "Generated!" 1400
     (show_password "a6^B" sample_page)
   = alert "Please select at least one character type." sample_page \/
   exists pw,
     showTemporaryMessage GenerateBtn "Generated!" 1400
       (show_password "a6^B" sample_page)
     = showTemporaryMessage GenerateBtn "Generated!" 1400
         (show_password pw sample_page) /\
     Z.of_nat (String.length pw) = page_length sample_parseInt sample_page).
Proof.
  assert (sample_parseInt (string_or (length_min sample_page) "4") = Some 4)
    as Hlo by reflexivity.
  assert (4 <= 4) as Hfour by done.
  split; [exact Hlo|]. split; [exact Hfour|]. split; [exact sample_click|].
  exact (on_generate_click_min_four sample_parseInt sample_page sample_world
           _ _ 4 Hlo Hfour sample_click).
Defined.

Lemma on_generate_click_too_short_witness :
  less_than (page_length sample_parseInt lenient_page)
    (sample_parseInt (string_or (length_min lenient_page) "4")) = false /\
  greater_than (page_length sample_parseInt lenient_page)
    (sample_parseInt (string_or (length_max lenient_page) "128")) = false /\
  selection (page_options lenient_page) <> [] /\
  page_length sample_parseInt lenient_page
    < selection_size (page_options lenient_page) /\
  on_generate_click sample_parseInt lenient_page sample_world
  = Some (alert "Length too short for selected character types" lenient_page,
          sample_world).
Proof.
  assert (less_than (page_length sample_parseInt lenient_page)
            (sample_parseInt (string_or (length_min lenient_page) "4")) = false)
    as Hlt by reflexivity.
  assert (greater_than (page_length sample_parseInt lenient_page)
            (sample_parseInt (string_or (length_max lenient_page) "128")) = false)
    as Hgt by reflexivity.
  assert (selection (page_options lenient_page) <> []) as Hsel by (by vm_compute).
  assert (page_length sample_parseInt lenient_page
            < selection_size (page_options lenient_page)) as Hshort
    by (by vm_compute).
  split; [exact Hlt|]. split; [exact Hgt|]. split; [exact Hsel|].
  split; [exact Hshort|].
  exact (on_generate_click_too_short sample_parseInt lenient_page sample_world
           Hlt Hgt Hsel Hshort).
Defined.

Lemma on_generate_click_label_witness :
  on_generate_click sample_parseInt sample_page sample_world
  = Some (showTemporaryMessage GenerateBtn "Generated!" 1400
            (show_password "a6^B" sample_page), sample_end) /\
  alerts (showTemporaryMessage GenerateBtn "Generated!" 1400
            (show_password "a6^B" sample_page)) = alerts sample_page /\
  exists t,
    timers (showTemporaryMessage GenerateBtn "Generated!" 1400
              (show_password "a6^B" sample_page)) = timers sample_page ++ [t] /\
    timer_ms t = 1400 /\
    generate_button (showTemporaryMessage GenerateBtn "Generated!" 1400
                       (show_password "a6^B" sample_page))
      = MkButton "Generated!" true /\
    generate_button
      (timeout_callback t
         (showTemporaryMessage GenerateBtn "Generated!" 1400
            (show_password "a6^B" sample_page)))
      = MkButton (textContent (generate_button sample_page)) false /\
    password_value
      (timeout_callback t
         (showTemporaryMessage GenerateBtn "Generated!" 1400
            (show_password "a6^B" sample_page)))
      = password_value (showTemporaryMessage GenerateBtn "Generated!" 1400
                          (show_password "a6^B" sample_page)) /\
    copy_button
      (timeout_callback t
         (showTemporaryMessage GenerateBtn "Generated!" 1400
            (show_password "a6^B" sample_page)))
      = copy_button sample_page.
Proof.
  split; [exact sample_click|]. split; [reflexivity|].
  exact (on_generate_click_label sample_parseInt sample_page sample_world
           _ _ sample_click eq_refl).
Defined.

(** ** showTemporaryMessage *)

(** X15. showTemporaryMessage puts the text on the button, disables it
    and leaves one timer; the callback of this timer puts the former
    text back and enables the button.  A second call on the same button
    before the first callback ran remembers the first text as the former
    one: when the callbacks then run in the order of the calls, the
    button keeps the text of the first call; only in the other order
    does it get its original text back. *)
Theorem showTemporaryMessage_callbacks button text1 text2 ms1 ms2 pg :
  let original := textContent (get_button button pg) in
  let t1 := MkTimer button original ms1 in
  let t2 := MkTimer button text1 ms2 in
  let pg1 := showTemporaryMessage button text1 ms1 pg in
  let pg2 := showTemporaryMessage button text2 ms2 pg1 in
  get_button button pg1 = MkButton text1 true /\
  timers pg1 = timers pg ++ [t1] /\
  get_button button (timeout_callback t1 pg1) = MkButton original false /\
  timers pg2 = timers pg ++ [t1; t2] /\
  get_button button (timeout_callback t2 (timeout_callback t1 pg2))
    = MkButton text1 false /\
  get_button button (timeout_callback t1 (timeout_callback t2 pg2))
    = MkButton original false.
Proof.
  destruct button; simpl; rewrite <-app_assoc; by repeat split.
Qed.

(** ** Reading the streams *)

Lemma fallback_sample_run :
  generatePassword 6 three_classes fallback_sample
  = Some (Return "EgdZ2V", fallback_sample_end).
Proof. by vm_compute. Qed.

(** X16. A run of generatePassword that returns has read a prefix of
    the stream of words and a prefix of the stream of Math.random
    values, and has left what follows them.  It looks at nothing beyond:
    on every world with the same capability whose streams start with
    these prefixes, whatever follows them and whatever the call log
    holds, generatePassword returns the same result and leaves exactly
    what follows the prefixes. *)
Theorem generatePassword_reads_prefix len o w r w' :
  generatePassword len o w = Some (r, w') ->
  crypto w' = crypto w /\
  exists p q,
    words w = p ++ words w' /\ randoms w = q ++ randoms w' /\
    forall rw rr cs, exists cs',
      generatePassword len o (MkWorld (crypto w) (p ++ rw) (q ++ rr) cs)
      = Some (r, MkWorld (crypto w) rw rr cs').
Proof.
  intros Hrun.
  destruct (generatePassword_replays len o _ _ _ Hrun)
    as (Hc & p & q & Hp & Hq & Hreplay).
  split; [exact Hc|]. exists p, q. by repeat split.
Qed.

Lemma generatePassword_reads_prefix_witness :
  generatePassword 6 three_classes fallback_sample
  = Some (Return "EgdZ2V", fallback_sample_end) /\
  exists cs',
    generatePassword 6 three_classes
      (MkWorld false [7; 8]
         (map (fun k => Unit01 (N.of_nat k) (Pos.of_nat (17 - k))) (seq 3 11)
          ++ [Unit01 1 1; Unit01 0 1]) [99])
    = Some (Return "EgdZ2V", MkWorld false [7; 8] [Unit01 1 1; Unit01 0 1] cs').
Proof.
  split; [exact fallback_sample_run|].
  destruct (generatePassword_reads_prefix 6 three_classes fallback_sample _ _
              fallback_sample_run) as (_ & p & q & Hp & Hq & Hreplay).
  assert (p = []) as -> by (by destruct p).
  assert (q = map (fun k => Unit01 (N.of_nat k) (Pos.of_nat (17 - k))) (seq 3 11))
    as -> by (apply (app_inv_tail [Unit01 14 3]); symmetry; exact Hq).
  exact (Hreplay [7; 8] [Unit01 1 1; Unit01 0 1] [99]).
Defined.
